(** * mismo.cluster._connected_components: connected-components labelling

    A shallow embedding of [src/mismo/cluster/_connected_components.py].
    The Python code drives a relational engine (ibis): tables are bags of
    rows, and every step is a join, a projection, a union, a [distinct] or a
    group-by.  Tables are embedded as lists of rows, the relational operators
    as list functions, and the functions of the module on top of them, one
    definition per Python function and with the Python names. *)

From Stdlib Require Import String.
From Stdlib Require Import List NArith ZArith Bool Lia Arith FinFun.
From Stdlib Require DecimalString DecimalNat.
Import ListNotations.

(* ================================================================== *)
(** ** Outcomes of a Python call *)

(** Exceptions the module can raise.  [ValueError] is raised by
    [_intify_edges], [AssertionError] by the row-count [assert] of the
    propagation loop, [TypeError] by the arithmetic [1 + None] of
    [_get_additional_labels] when the label column is empty, and
    [IbisError] stands for the exceptions of the engine, which refuses to
    build an expression over a column that a table does not have, or over
    columns or tables whose types differ. *)
Inductive exn : Type :=
| ValueError
| AssertionError
| TypeError
| IbisError.

(** Result of running a function of the module: it returns, it raises, it
    leaves the fragment covered by the embedding ([NullLabel]: a label
    column that holds a NULL, see [_updated_labels]), or the fuel given to
    the [for i in count(1)] loop ran out. *)
Inductive outcome (A : Type) : Type :=
| Returned (a : A)
| Raised (e : exn)
| NullLabel
| OutOfFuel.

Arguments Returned {A} a.
Arguments Raised {A} e.
Arguments NullLabel {A}.
Arguments OutOfFuel {A}.

Definition bind {A B : Type} (m : outcome A) (k : A -> outcome B) : outcome B :=
  match m with
  | Returned a => k a
  | Raised e => Raised e
  | NullLabel => NullLabel
  | OutOfFuel => OutOfFuel
  end.

Notation "x <- m ;; k" := (bind m (fun x => k))
  (at level 61, m at next level, right associativity).

(* ================================================================== *)
(** ** Relational operators *)

Module Rel.

Section Operators.
Variables A B : Type.

(** [l.join(r, on)]: every pair of rows that satisfies the predicate. *)
Definition inner_join (on : A -> B -> bool) (l : list A) (r : list B)
  : list (A * B) :=
  flat_map (fun a => map (pair a) (filter (on a) r)) l.

(** [l.left_join(r, on)]: as [inner_join], and a left row without a match
    is kept once, with NULL on the right. *)
Definition left_join (on : A -> B -> bool) (l : list A) (r : list B)
  : list (A * option B) :=
  flat_map (fun a =>
              match filter (on a) r with
              | [] => [(a, None)]
              | ms => map (fun b => (a, Some b)) ms
              end) l.
End Operators.

Arguments inner_join {A B} on l r.
Arguments left_join {A B} on l r.

Definition row_eq_dec (x y : N * N) : {x = y} + {x <> y}.
Proof. decide equality; apply N.eq_dec. Defined.

(** [t.distinct()] on two-column integer tables. *)
Definition distinct (t : list (N * N)) : list (N * N) := nodup row_eq_dec t.

(** [ibis.union(l, r, distinct=True)]. *)
Definition union_distinct (l r : list (N * N)) : list (N * N) :=
  distinct (l ++ r).

(** The aggregate [min()] of a group; SQL gives NULL for an empty one. *)
Definition agg_min (xs : list N) : option N :=
  match xs with
  | [] => None
  | x :: xs' => Some (fold_left N.min xs' x)
  end.

(** [t.group_by(key).agg(value=value.min())] on rows [(key, value)]. *)
Definition group_by_min (t : list (N * N)) : list (N * N) :=
  flat_map (fun k =>
              match agg_min (map snd (filter (fun r => fst r =? k)%N t)) with
              | Some v => [(k, v)]
              | None => []
              end)
           (nodup N.eq_dec (map fst t)).

(** [t.column.max().execute()]; [None] on an empty table. *)
Definition agg_max (xs : list N) : option N :=
  match xs with
  | [] => None
  | x :: xs' => Some (fold_left N.max xs' x)
  end.

End Rel.

(* ================================================================== *)
(** ** The integer core *)

(** Rows [(record_id_l, record_id_r)] of the integer edge table. *)
Definition Edges : Type := list (N * N).

(** Rows [(record_id, component)] of a labelling; both columns are
    [uint64] codes.  The core only compares codes and takes minima, so no
    arithmetic can overflow. *)
Definition Labels : Type := list (N * N).

(** Rows [(record_id, component)] as they come out of the left join of
    [_updated_labels], where [component] is nullable. *)
Definition NullableLabels : Type := list (N * option N).

Definition record_id (r : N * N) : N := fst r.
Definition component (r : N * N) : N := snd r.

(** [_get_initial_labels]. *)
Definition _get_initial_labels (edges : Edges) : Labels :=
  let labels_left := map (fun e => (fst e, fst e)) edges in
  let labels_right := map (fun e => (snd e, snd e)) edges in
  Rel.union_distinct labels_left labels_right.

(** [_get_component_equivalences]: rows [(component_l, component_r)]. *)
Definition _get_component_equivalences (edges : Edges) (node_labels : Labels)
  : list (N * N) :=
  (* rows (record_id_r, component_l) *)
  let same_components :=
    map (fun j => (snd (fst j), component (snd j)))
        (Rel.inner_join (fun e r => (fst e =? record_id r)%N) edges node_labels) in
  (* rows (component_l, component_r) *)
  let same_components :=
    map (fun j => (snd (fst j), component (snd j)))
        (Rel.inner_join (fun s r => (fst s =? record_id r)%N)
                        same_components node_labels) in
  Rel.distinct same_components.

(** [_get_component_update_map]: rows [(component_old, component)]. *)
Definition _get_component_update_map (component_equivalences : list (N * N))
  : list (N * N) :=
  let representative := fun p : N * N => N.min (fst p) (snd p) in
  let ml := map (fun p => (fst p, representative p)) component_equivalences in
  let mr := map (fun p => (snd p, representative p)) component_equivalences in
  let together := Rel.union_distinct ml mr in
  Rel.group_by_min together.

(** [_updated_labels]: the left join of the labelling with the update map
    on [component_old], projected on [(record_id, component)]. *)
Definition _updated_labels (node_labels : Labels) (edges : Edges)
  : NullableLabels :=
  let component_equivalences := _get_component_equivalences edges node_labels in
  let component_mapping := _get_component_update_map component_equivalences in
  map (fun j => (record_id (fst j), option_map snd (snd j)))
      (Rel.left_join (fun r m => (component r =? fst m)%N)
                     node_labels component_mapping).

(** Modelled from the spec: [mismo._util.join], which [_n_updates] calls, is
    not among the sources; the spec describes [_n_updates] as the count of
    nodes whose label differs between two labellings keyed by node, which is
    the inner join on the given condition.  A comparison with NULL is not
    true in SQL, so a NULL component never counts as an update. *)
Definition _n_updates (labels : Labels) (new_labels : NullableLabels) : nat :=
  let condition := fun (l : N * N) (n : N * option N) =>
    (record_id l =? fst n)%N &&
    match snd n with
    | Some c => negb (component l =? c)%N
    | None => false
    end in
  length (Rel.inner_join condition labels new_labels).

(** A labelling without NULL read back as a [Labels] table. *)
Fixpoint non_null (t : NullableLabels) : option Labels :=
  match t with
  | [] => Some []
  | (n, Some c) :: t' => option_map (cons (n, c)) (non_null t')
  | (_, None) :: _ => None
  end.

(** How the propagation loop was left: by its [n_updates == 0] return or by
    its [i >= max_iter] return.  This tag is ghost state of the embedding:
    the Python function returns the labelling only. *)
Inductive exit_state : Type := Converged | MaxIterReached.

Section Loop.
(** The round function; the loop is written over it so that the
    row-count assertion can also be studied for a round function that
    breaks it.  [_connected_components_ints] instantiates it with
    [_updated_labels]. *)
Variable updated : Labels -> Edges -> NullableLabels.
Variable edges : Edges.
Variable max_iter : option Z.

(** The body of [for i in count(1)], [fuel] bounding the rounds run.
    The NULL semantics of [least], [group_by] and [min] differ between
    engines, so the embedding does not follow a labelling with a NULL
    component into the next round: it stops with [NullLabel]. *)
Fixpoint propagate (fuel : nat) (i : Z) (labels : Labels)
  : outcome (Labels * exit_state * Z) :=
  match fuel with
  | O => OutOfFuel
  | S fuel' =>
      let new_labels := updated labels edges in
      if negb (length labels =? length new_labels) then Raised AssertionError
      else
        let n_updates := _n_updates labels new_labels in
        if n_updates =? 0 then Returned (labels, Converged, i)
        else
          match non_null new_labels with
          | None => NullLabel
          | Some labels' =>
              if match max_iter with
                 | Some m => (m <=? i)%Z
                 | None => false
                 end
              then Returned (labels', MaxIterReached, i)
              else propagate fuel' (i + 1)%Z labels'
          end
  end.
End Loop.

(** [_connected_components_ints] together with the ghost exit state and the
    number of the round in which it returned. *)
Definition run_rounds (fuel : nat) (edges : Edges) (max_iter : option Z)
  : outcome (Labels * exit_state * Z) :=
  propagate _updated_labels edges max_iter fuel 1%Z (_get_initial_labels edges).

(** [_connected_components_ints]. *)
Definition _connected_components_ints (fuel : nat) (edges : Edges)
  (max_iter : option Z) : outcome Labels :=
  r <- run_rounds fuel edges max_iter ;; Returned (fst (fst r)).

(* ================================================================== *)
(** ** The tables of the caller *)

(** The identifier types of the caller.  Two of them stand for the types
    of the engine: what matters to the module is whether two columns have
    the same type. *)
Inductive dtype : Type := int64 | string_type.

(** A record id.  Columns are typed as a whole, so a column never holds
    NULL here, and the failure of the factorizer on a NULL id is outside
    the embedding. *)
Inductive value : Type :=
| VInt (z : Z)
| VString (s : string).

Inductive column : Type :=
| IntColumn (cells : list Z)
| StringColumn (cells : list string).

Definition dtype_of (c : column) : dtype :=
  match c with
  | IntColumn _ => int64
  | StringColumn _ => string_type
  end.

Definition cells (c : column) : list value :=
  match c with
  | IntColumn zs => map VInt zs
  | StringColumn ss => map VString ss
  end.

Definition dtype_eqb (a b : dtype) : bool :=
  match a, b with
  | int64, int64 => true
  | string_type, string_type => true
  | _, _ => false
  end.

Definition value_eqb (a b : value) : bool :=
  match a, b with
  | VInt x, VInt y => (x =? y)%Z
  | VString x, VString y => String.eqb x y
  | _, _ => false
  end.

Definition value_eq_dec (a b : value) : {a = b} + {a <> b}.
Proof. decide equality; [apply Z.eq_dec|apply string_dec]. Defined.

(** A table of the caller: named, typed columns. *)
Definition Table : Type := list (string * column).

(** [t.columns]. *)
Definition columns (t : Table) : list string := map fst t.

(** [name in t.columns]. *)
Definition has_column (name : string) (t : Table) : bool :=
  existsb (String.eqb name) (columns t).

(** [t[name]]. *)
Definition get_column (name : string) (t : Table) : option column :=
  option_map snd (find (fun c => String.eqb name (fst c)) t).

(** The table [(record_id, component)] that [connected_components]
    returns: the type of its [record_id] column and its rows. *)
Record LabelTable : Type := {
  record_id_type : dtype;
  label_rows : list (value * N)
}.

(* ================================================================== *)
(** ** The factorizer *)

(** Modelled from the spec: the class [mismo._factorizer.Factorizer] is not
    among the sources.  The spec describes it as a bidirectional mapping
    between the identifiers and dense integer codes: it assigns each
    distinct identifier a code in [0, N), the mapping is a bijection over
    the distinct identifiers present, and how ties are broken is left to
    the implementation.  A factorizer is taken here as any function from
    the identifiers to the table of their codes, [conforming] when it meets
    that description. *)
Definition Factorizer : Type := list value -> list (value * N).

Definition dense_bijection (ids : list value) (mapping : list (value * N))
  : Prop :=
  NoDup (map fst mapping) /\
  (forall v, In v (map fst mapping) <-> In v ids) /\
  NoDup (map snd mapping) /\
  (forall c, In c (map snd mapping) <-> (c < N.of_nat (length mapping))%N).

Definition conforming (F : Factorizer) : Prop :=
  forall ids, dense_bijection ids (F ids).

(** A factorizer that numbers the distinct identifiers in the order of the
    rows. *)
Definition occurrence_codes : Factorizer :=
  fun ids =>
    let distinct_ids := nodup value_eq_dec ids in
    combine distinct_ids (map N.of_nat (seq 0 (length distinct_ids))).

(** A factorizer that numbers them in the opposite order. *)
Definition reverse_codes : Factorizer :=
  fun ids =>
    let distinct_ids := rev (nodup value_eq_dec ids) in
    combine distinct_ids (map N.of_nat (seq 0 (length distinct_ids))).

(** Modelled from the spec: [Factorizer.encode(t, column)] replaces the
    identifiers of a column by their codes, a join with the mapping.
    [encode_l] does it for column [record_id_l] of the edge rows and
    [encode_r] for column [record_id_r]. *)
Definition encode_l (mapping : list (value * N)) (rows : list (value * value))
  : list (N * value) :=
  map (fun j => (snd (snd j), snd (fst j)))
      (Rel.inner_join (fun (row : value * value) (c : value * N) =>
                         value_eqb (fst row) (fst c)) rows mapping).

Definition encode_r (mapping : list (value * N)) (rows : list (N * value))
  : list (N * N) :=
  map (fun j => (fst (fst j), snd (snd j)))
      (Rel.inner_join (fun (row : N * value) (c : value * N) =>
                         value_eqb (snd row) (fst c)) rows mapping).

(** Modelled from the spec: [Factorizer.decode(t, "record_id")] joins the
    codes of column [record_id] back to the original identifiers. *)
Definition decode (mapping : list (value * N)) (int_labels : Labels)
  : list (value * N) :=
  map (fun j => (fst (snd j), component (fst j)))
      (Rel.inner_join (fun (row : N * N) (c : value * N) =>
                         (record_id row =? snd c)%N) int_labels mapping).

(* ================================================================== *)
(** ** The functions on the tables of the caller *)

(** [_intify_edges].  The union of the edge table with its swapped copy is
    a set operation, for which the engine requires that a column has the
    same type in both tables: [record_id_l] has the type of the left
    endpoints in one and of the right endpoints in the other.  The union
    keeps duplicates.  The restoring function is returned as a closure, as
    in the source. *)
Definition _intify_edges (F : Factorizer) (raw_edges : Table)
  : outcome (Edges * (Labels -> LabelTable)) :=
  if negb (has_column "record_id_l" raw_edges)
     || negb (has_column "record_id_r" raw_edges)
  then Raised ValueError
  else
    match get_column "record_id_l" raw_edges,
          get_column "record_id_r" raw_edges with
    | Some l, Some r =>
        if negb (dtype_eqb (dtype_of l) (dtype_of r)) then Raised IbisError
        else
          let all_node_ids := cells l ++ cells r in
          let f := F all_node_ids in
          let edges := encode_l f (combine (cells l) (cells r)) in
          let edges := encode_r f edges in
          let restore := fun int_labels =>
            {| record_id_type := dtype_of l;
               label_rows := decode f int_labels |} in
          Returned (edges, restore)
    | _, _ => Raised ValueError
    end.

(** The [nodes] argument: a table with a column [record_id], or the column
    itself. *)
Inductive nodes_arg : Type :=
| NodesTable (t : Table)
| NodesColumn (c : column).

(** [nodes.name("record_id").as_table()] for a column, the table itself
    otherwise. *)
Definition as_table (nodes : nodes_arg) : Table :=
  match nodes with
  | NodesTable t => t
  | NodesColumn c => [("record_id"%string, c)]
  end.

(** [ibis.row_number()]: the rows numbered from 0. *)
Definition row_number {A : Type} (rows : list A) : list (A * N) :=
  combine rows (map N.of_nat (seq 0 (length rows))).

(** [_get_additional_labels].  [notin] is refused by the engine when the
    two columns have different types; the maximum of an empty label column
    is [None], on which [1 + max_existing_label] raises.  The label
    arithmetic is on unbounded integers: there are fewer rows than 2^63. *)
Definition _get_additional_labels (labels : LabelTable) (nodes : nodes_arg)
  : outcome LabelTable :=
  let nodes := as_table nodes in
  match get_column "record_id" nodes with
  | None => Raised IbisError
  | Some ids =>
      if negb (dtype_eqb (dtype_of ids) (record_id_type labels))
      then Raised IbisError
      else
        let is_missing_label := fun v =>
          negb (existsb (value_eqb v) (map fst (label_rows labels))) in
        match Rel.agg_max (map snd (label_rows labels)) with
        | None => Raised TypeError
        | Some max_existing_label =>
            let additional_labels :=
              map (fun r => (fst r, (snd r + (1 + max_existing_label))%N))
                  (row_number (filter is_missing_label (cells ids))) in
            Returned {| record_id_type := dtype_of ids;
                        label_rows := additional_labels |}
        end
  end.

(** [_add_labels_for_missing_nodes]: the union keeps duplicates, and the
    engine requires equal column types. *)
Definition _add_labels_for_missing_nodes (labels : LabelTable)
  (nodes : nodes_arg) : outcome LabelTable :=
  additional_labels <- _get_additional_labels labels nodes ;;
  if negb (dtype_eqb (record_id_type labels) (record_id_type additional_labels))
  then Raised IbisError
  else Returned {| record_id_type := record_id_type labels;
                   label_rows := label_rows labels
                                 ++ label_rows additional_labels |}.

(** [connected_components]. *)
Definition connected_components (F : Factorizer) (fuel : nat) (edges : Table)
  (nodes : option nodes_arg) (max_iter : option Z) : outcome LabelTable :=
  ie <- _intify_edges F edges ;;
  let int_edges := fst ie in
  let restore := snd ie in
  int_labels <- _connected_components_ints fuel int_edges max_iter ;;
  let result := restore int_labels in
  match nodes with
  | Some nodes => _add_labels_for_missing_nodes result nodes
  | None => Returned result
  end.

(* ================================================================== *)
(** ** The graph of an edge table *)

(** Every endpoint of every edge, duplicates included. *)
Definition nodes_of {A : Type} (edges : list (A * A)) : list A :=
  map fst edges ++ map snd edges.

(** Two nodes joined by an edge, in either direction. *)
Definition adjacent {A : Type} (edges : list (A * A)) (a b : A) : Prop :=
  In (a, b) edges \/ In (b, a) edges.

(** Two nodes joined by a path of edges of the undirected graph. *)
Inductive connected {A : Type} (edges : list (A * A)) : A -> A -> Prop :=
| connected_refl a : connected edges a a
| connected_step a b c :
    adjacent edges a b -> connected edges b c -> connected edges a c.

(** Two nodes joined by a path of at most [d] edges. *)
Inductive within {A : Type} (edges : list (A * A)) : nat -> A -> A -> Prop :=
| within_refl d a : within edges d a a
| within_step d a b c :
    adjacent edges a b -> within edges d b c -> within edges (S d) a c.

(** Any two connected nodes are joined by a path of at most [d] edges. *)
Definition diameter_le (edges : Edges) (d : nat) : Prop :=
  forall a b, connected edges a b -> within edges d a b.

(** The distinct nodes of the edge table. *)
Definition distinct_nodes (edges : Edges) : list N :=
  nodup N.eq_dec (nodes_of edges).

(* ================================================================== *)
(** ** The labellings of the propagation loop *)

(** The labellings on which the body of the propagation loop runs: the
    initial one, and the result of a round that updated some label. *)
Inductive round_input (edges : Edges) : Labels -> Prop :=
| round_first : round_input edges (_get_initial_labels edges)
| round_next labels labels' :
    round_input edges labels ->
    non_null (_updated_labels labels edges) = Some labels' ->
    _n_updates labels (_updated_labels labels edges) <> 0 ->
    round_input edges labels'.

(** A labelling that a round leaves as it is. *)
Definition fixpoint (edges : Edges) (labels : Labels) : Prop :=
  non_null (_updated_labels labels edges) = Some labels.

(** Sum of the component column, the measure that bounds the rounds. *)
Definition label_sum (labels : Labels) : N :=
  fold_right (fun r acc => (component r + acc)%N) 0%N labels.

(** A number of rounds that the loop cannot exceed on [edges]: every round
    that does not return lowers the sum of the labels. *)
Definition enough_fuel (edges : Edges) : nat :=
  S (N.to_nat (label_sum (_get_initial_labels edges))).

(** [w] is the representative of an equivalence pair of the round run on
    [labels] that has the label [c] on one of its sides. *)
Definition candidate (edges : Edges) (labels : Labels) (c w : N) : Prop :=
  exists a b cl cr,
    In (a, b) edges /\ In (a, cl) labels /\ In (b, cr) labels /\
    (c = cl \/ c = cr) /\ w = N.min cl cr.

(** The row that the update map of the round run on [labels] holds for the
    old label [c], read as the new label. *)
Definition new_label (edges : Edges) (labels : Labels) (c : N) : option N :=
  option_map snd
    (find (fun x => (c =? fst x)%N)
          (_get_component_update_map
             (_get_component_equivalences edges labels))).

(** The labelling [labels'] is [labels] with every component sent through
    the partial map [g]. *)
Definition relabelled (g : N -> option N) (labels labels' : Labels) : Prop :=
  Forall2 (fun r r' => record_id r' = record_id r /\
                       g (component r) = Some (component r'))
          labels labels'.

(** What every labelling met by the loop satisfies: it has the rows of the
    initial labelling, in the same order, and the label of a node is the
    code of a node of its component that is not above the node's own. *)
Record labelling_ok (edges : Edges) (labels : Labels) : Prop := {
  ok_ids : map record_id labels = map record_id (_get_initial_labels edges);
  ok_label : forall n c, In (n, c) labels -> connected edges n c /\ (c <= n)%N
}.

(** After [r] rounds the label of a node is not above the code of any node
    that a path of at most [r] edges reaches from it. *)
Definition near (edges : Edges) (labels : Labels) (r : nat) : Prop :=
  forall n m c, within edges r n m -> In (n, c) labels -> (c <= m)%N.

(* ================================================================== *)
(** ** Identifiers, codes and label tables *)

(** The rows of the edge table as pairs of identifiers, and all the
    identifiers, as [_intify_edges] hands them to the factorizer. *)
Definition edge_rows (l r : column) : list (value * value) :=
  combine (cells l) (cells r).

(** The code that a mapping gives to an identifier. *)
Definition code_of (mapping : list (value * N)) (v : value) : N :=
  match find (fun c => value_eqb v (fst c)) mapping with
  | Some c => snd c
  | None => 0%N
  end.

(** The edge rows with both ends sent through [f]. *)
Definition coded_edges (f : value -> N) (raw : list (value * value)) : Edges :=
  map (fun e => (f (fst e), f (snd e))) raw.

(** The integer edge table that [_intify_edges] produces. *)
Definition int_edges_of (F : Factorizer) (edges : Table) : Edges :=
  match _intify_edges F edges with
  | Returned ie => fst ie
  | _ => []
  end.

(** The nodes of a universe that have no row in a label table. *)
Definition missing_nodes (labels : LabelTable) (ids : column) : list value :=
  filter (fun v => negb (existsb (value_eqb v) (map fst (label_rows labels))))
         (cells ids).

(** The labels added for the missing nodes: the largest label in use, plus
    one, plus the rank of the row among the missing ones. *)
Definition fresh_labels (max_existing_label : N) (missing : list value)
  : list (value * N) :=
  combine missing
          (map (fun i => (max_existing_label + 1 + N.of_nat i)%N)
               (seq 0 (length missing))).

(** Two label tables list the same nodes in the same order and put two
    rows under one label in the one exactly when the other does. *)
Definition same_partition (t1 t2 : list (value * N)) : Prop :=
  map fst t1 = map fst t2 /\
  forall i j c1 d1 c2 d2,
    nth_error (map snd t1) i = Some c1 -> nth_error (map snd t1) j = Some d1 ->
    nth_error (map snd t2) i = Some c2 -> nth_error (map snd t2) j = Some d2 ->
    (c1 = d1 <-> c2 = d2).

(** Two runs agree: they raise the same exception, or they return tables
    of the same type with the same partition. *)
Definition runs_agree (o1 o2 : outcome LabelTable) : Prop :=
  match o1, o2 with
  | Returned t1, Returned t2 =>
      record_id_type t1 = record_id_type t2 /\
      same_partition (label_rows t1) (label_rows t2)
  | Raised e1, Raised e2 => e1 = e2
  | _, _ => False
  end.

(* ================================================================== *)
(** ** Edge tables used in examples *)

(** The edge table of the docstring of [connected_components], with the
    codes a=0, b=1, c=2, x=3, y=4, z=5, g=6, h=7. *)
Definition docstring_edges : Edges :=
  [(0, 3); (1, 3); (1, 4); (2, 4); (2, 5); (6, 7)]%N.

(** The edge table of the docstring of [connected_components]. *)
Definition docstring_table : Table :=
  [("record_id_l", StringColumn ["a"; "b"; "b"; "c"; "c"; "g"]);
   ("record_id_r", StringColumn ["x"; "x"; "y"; "y"; "z"; "h"])]%string.

(** The path 1-5-6-4-0. *)
Definition path_15640 : Edges := [(1, 5); (5, 6); (6, 4); (4, 0)]%N.

(** The same nodes as two stars, {1, 5} and {0, 4, 6}. *)
Definition two_stars : Edges := [(1, 1); (1, 5); (0, 6); (0, 4); (0, 0)]%N.

(** The path graph of [k] edges whose nodes carry the codes 0, 1, ..., k in
    the order of the path. *)
Definition chain (k : nat) : Edges :=
  map (fun i => (N.of_nat i, N.of_nat (S i))) (seq 0 k).

(** The labelling of [chain k] in which the label of every node is [r]
    below its code, and 0 for the first [r] nodes. *)
Definition chain_labels (k r : nat) : Labels :=
  map (fun n => (N.of_nat n, N.of_nat (n - r))) (seq 0 (S k)).

(** The path graph that visits the nodes of [p] in order: one edge from
    every node to the next, whatever codes the nodes carry. *)
Definition path_graph (p : list N) : Edges := combine p (tl p).

(** An edge table without the column [record_id_r]. *)
Definition one_column_table : Table :=
  [("record_id_l", StringColumn ["a"; "b"]);
   ("record_id", StringColumn ["x"; "y"])]%string.

(** An edge table whose two endpoint columns have different types. *)
Definition mixed_type_table : Table :=
  [("record_id_l", StringColumn ["a"; "b"]);
   ("record_id_r", IntColumn [1; 2]%Z)]%string.

(** The labelling that both runs of the two tables above return under the
    round limit 2. *)
Definition stopped_labels : Labels :=
  [(1, 1); (5, 1); (6, 0); (4, 0); (0, 0)]%N.

(** A label table with the two components {a, x} and {g, h}. *)
Definition two_component_labels : LabelTable :=
  {| record_id_type := string_type;
     label_rows := [(VString "a", 0%N); (VString "x", 0%N);
                    (VString "g", 3%N); (VString "h", 3%N)] |}.

(** A universe with the two new nodes w and v. *)
Definition universe_wav : nodes_arg :=
  NodesColumn (StringColumn ["w"; "a"; "v"]%string).

(* ================================================================== *)
(** ** Comparing edge tables and labellings *)

(** Two edge tables that join the same pairs of nodes, whatever the
    direction, the order and the number of copies of their rows. *)
Definition same_adjacency (edges edges' : Edges) : Prop :=
  forall a b, adjacent edges a b <-> adjacent edges' a b.

(** The edge table with the two columns exchanged. *)
Definition swapped (edges : Edges) : Edges :=
  map (fun e => (snd e, fst e)) edges.

(** The rows of a labelling whose component differs, row by row, from the
    component of a new labelling. *)
Definition changed_rows (labels : Labels) (new_labels : NullableLabels)
  : list ((N * N) * (N * option N)) :=
  filter (fun p => match snd (snd p) with
                   | Some c => negb (component (fst p) =? c)%N
                   | None => false
                   end)
         (combine labels new_labels).

(* ================================================================== *)
(** ** [mismo._util] *)

(** The name [f"__unique_column_name_{i}__"], the number in decimal. *)
Definition column_name (i : nat) : string :=
  ("__unique_column_name_"
   ++ DecimalString.NilEmpty.string_of_uint (Nat.to_uint i)
   ++ "__")%string.

(** The loop of [unique_column_name] entered with the counter [i]; [fuel]
    bounds the names tried. *)
Fixpoint unique_column_name_from (fuel i : nat) (t : Table) : option string :=
  match fuel with
  | O => None
  | S fuel' =>
      let name := column_name i in
      if negb (has_column name t) then Some name
      else unique_column_name_from fuel' (S i) t
  end.

(** [unique_column_name]. *)
Definition unique_column_name (fuel : nat) (t : Table) : option string :=
  unique_column_name_from fuel 0 t.

Section GroupId.
(** The keys of the rows, with the order the engine sorts them by. *)
Variable K : Type.
Variable ltb : K -> K -> bool.
Variable eq_dec : forall x y : K, {x = y} + {x <> y}.

(** [ibis.dense_rank()] over a window ordered by the key: the number of
    distinct keys below the key, counted from 0. *)
Definition dense_rank (keys : list K) (k : K) : nat :=
  length (filter (fun d => ltb d k) (nodup eq_dec keys)).

(** [group_id]: the dense rank of the key of every row, cast to
    [uint64]. *)
Definition group_id (keys : list K) : list N :=
  map (fun k => N.of_nat (dense_rank keys k)) keys.
End GroupId.

Arguments dense_rank {K} ltb eq_dec keys k.
Arguments group_id {K} ltb eq_dec keys.

(** The keys are totally ordered by [ltb]. *)
Definition strict_total_order {K : Type} (ltb : K -> K -> bool) : Prop :=
  (forall x, ltb x x = false) /\
  (forall x y z, ltb x y = true -> ltb y z = true -> ltb x z = true) /\
  (forall x y, x <> y -> ltb x y = true \/ ltb y x = true).
(* ================================================================== *)
(** ** Facts about the relational operators *)

Module RelFacts.
Import Rel.

Lemma in_inner_join (A B : Type) (on : A -> B -> bool) l r a b :
  In (a, b) (inner_join on l r) <-> In a l /\ In b r /\ on a b = true.
Proof.
  unfold inner_join. rewrite in_flat_map. split.
  - intros [a' [Ha Hin]]. apply in_map_iff in Hin as [b' [Heq Hb]].
    inversion Heq; subst. apply filter_In in Hb. tauto.
  - intros (Ha & Hb & Hon). exists a. split; [assumption|].
    apply in_map. apply filter_In. tauto.
Qed.

Lemma in_distinct t x : In x (distinct t) <-> In x t.
Proof. unfold distinct. apply nodup_In. Qed.

Lemma in_union_distinct l r x : In x (union_distinct l r) <-> In x l \/ In x r.
Proof. unfold union_distinct. rewrite in_distinct. apply in_app_iff. Qed.

Lemma fold_min_le xs : forall x, (fold_left N.min xs x <= x)%N.
Proof.
  induction xs as [|y xs IH]; simpl; intros x; [lia|].
  specialize (IH (N.min x y)). lia.
Qed.

Lemma fold_min_lower xs : forall x w, In w xs -> (fold_left N.min xs x <= w)%N.
Proof.
  induction xs as [|y xs IH]; simpl; intros x w Hw; [contradiction|].
  destruct Hw as [<-|Hw].
  - pose proof (fold_min_le xs (N.min x y)). lia.
  - now apply IH.
Qed.

Lemma fold_min_in xs : forall x,
  fold_left N.min xs x = x \/ In (fold_left N.min xs x) xs.
Proof.
  induction xs as [|y xs IH]; simpl; intros x; [now left|].
  destruct (IH (N.min x y)) as [H|H]; [|now right; right].
  rewrite H. destruct (N.min_spec x y) as [[_ E]|[_ E]]; rewrite E; auto.
Qed.

Lemma agg_min_spec xs v :
  agg_min xs = Some v <-> In v xs /\ forall w, In w xs -> (v <= w)%N.
Proof.
  destruct xs as [|x xs]; simpl.
  - split; [discriminate|tauto].
  - split.
    + intros H. inversion H; subst; clear H. split.
      * destruct (fold_min_in xs x) as [E|E]; [left; now rewrite E|now right].
      * intros w [<-|Hw]; [apply fold_min_le|now apply fold_min_lower].
    + intros [Hin Hlow]. f_equal. apply N.le_antisymm.
      * destruct Hin as [<-|Hin]; [apply fold_min_le|now apply fold_min_lower].
      * apply Hlow. destruct (fold_min_in xs x) as [E|E];
          [left; now rewrite E|now right].
Qed.

Lemma in_group_by_min t k v :
  In (k, v) (group_by_min t) <->
  In (k, v) t /\ forall w, In (k, w) t -> (v <= w)%N.
Proof.
  unfold group_by_min. rewrite in_flat_map.
  assert (Hgrp : forall k' w,
             In w (map snd (filter (fun r => (fst r =? k')%N) t)) <-> In (k', w) t).
  { intros k' w. rewrite in_map_iff. split.
    - intros [[a b] [E H]]. simpl in E. subst b.
      apply filter_In in H as [H E]. simpl in E. apply N.eqb_eq in E. now subst.
    - intros H. exists (k', w). split; [reflexivity|].
      apply filter_In. split; [assumption|]. simpl. apply N.eqb_refl. }
  split.
  - intros [k' [_ H]].
    destruct (agg_min _) as [v'|] eqn:E; [|contradiction].
    destruct H as [H|[]]. inversion H; subst; clear H.
    apply agg_min_spec in E as [Hin Hlow]. split.
    + now apply Hgrp.
    + intros w Hw. apply Hlow. now apply Hgrp.
  - intros [Hin Hlow]. exists k. split.
    + apply nodup_In. apply in_map_iff. now exists (k, v).
    + assert (E : agg_min (map snd (filter (fun r => (fst r =? k)%N) t)) = Some v).
      { apply agg_min_spec. split; [now apply Hgrp|].
        intros w Hw. apply Hlow. now apply Hgrp. }
      rewrite E. now left.
Qed.

Lemma NoDup_flat_map_keys (f : N -> list (N * N)) ks :
  NoDup ks ->
  (forall k, f k = [] \/ exists v, f k = [(k, v)]) ->
  NoDup (map fst (flat_map f ks)).
Proof.
  intros Hnd Hf. induction Hnd as [|k ks Hk Hnd IH]; simpl; [constructor|].
  rewrite map_app. destruct (Hf k) as [E|[v E]]; rewrite E; simpl; [assumption|].
  constructor; [|assumption].
  intros Hin. apply in_map_iff in Hin as [[k' v'] [E' Hin]]. simpl in E'. subst k'.
  apply in_flat_map in Hin as [k' [Hk' Hin]].
  destruct (Hf k') as [E2|[v2 E2]]; rewrite E2 in Hin; [contradiction|].
  destruct Hin as [Hin|[]]. inversion Hin; subst. contradiction.
Qed.

Lemma NoDup_group_by_min t : NoDup (map fst (group_by_min t)).
Proof.
  unfold group_by_min. apply NoDup_flat_map_keys.
  - apply NoDup_nodup.
  - intros k. destruct (agg_min _); [right; eauto|now left].
Qed.

(** With unique keys on the right, a key selects at most one row. *)
Lemma filter_unique_key (m : list (N * N)) k :
  NoDup (map fst m) ->
  filter (fun x => (k =? fst x)%N) m =
  match find (fun x => (k =? fst x)%N) m with
  | Some b => [b]
  | None => []
  end.
Proof.
  induction m as [|x m IH]; simpl; intros Hnd; [reflexivity|].
  inversion Hnd as [|? ? Hx Hnd']; subst.
  destruct (k =? fst x)%N eqn:E.
  - f_equal. apply N.eqb_eq in E. subst k.
    clear - Hx. induction m as [|y m IH]; simpl; [reflexivity|].
    destruct (fst x =? fst y)%N eqn:E.
    + apply N.eqb_eq in E. exfalso. apply Hx. simpl. now left.
    + apply IH. intros H. apply Hx. now right.
  - now apply IH.
Qed.

Lemma left_join_unique_key (L m : list (N * N)) :
  NoDup (map fst m) ->
  left_join (fun r x => (snd r =? fst x)%N) L m =
  map (fun r => (r, find (fun x => (snd r =? fst x)%N) m)) L.
Proof.
  intros Hnd. unfold left_join.
  induction L as [|r L IH]; [reflexivity|].
  rewrite map_cons. cbn [flat_map]. rewrite IH.
  rewrite (filter_unique_key m (snd r) Hnd).
  destruct (find _ m); reflexivity.
Qed.

Lemma find_key_in (m : list (N * N)) k v :
  NoDup (map fst m) ->
  (option_map snd (find (fun x => (k =? fst x)%N) m) = Some v <-> In (k, v) m).
Proof.
  induction m as [|[k' v'] m IH]; simpl; intros Hnd.
  - split; [discriminate|tauto].
  - inversion Hnd as [|? ? Hx Hnd']; subst.
    destruct (k =? k')%N eqn:E; simpl.
    + apply N.eqb_eq in E. subst k'. split.
      * intros H. inversion H. now left.
      * intros [H|H]; [now inversion H|].
        exfalso. apply Hx. apply in_map_iff. now exists (k, v).
    + apply N.eqb_neq in E. rewrite (IH Hnd'). split; [tauto|].
      intros [H|H]; [inversion H; congruence|assumption].
Qed.

End RelFacts.

Module Graph.

Lemma adjacent_sym {A : Type} (edges : list (A * A)) a b : adjacent edges a b -> adjacent edges b a.
Proof. unfold adjacent. tauto. Qed.

Lemma adjacent_nodes {A : Type} (edges : list (A * A)) a b :
  adjacent edges a b -> In a (nodes_of edges) /\ In b (nodes_of edges).
Proof.
  unfold adjacent, nodes_of. intros [H|H]; split; apply in_app_iff.
  - left. apply in_map_iff. now exists (a, b).
  - right. apply in_map_iff. now exists (a, b).
  - right. apply in_map_iff. now exists (b, a).
  - left. apply in_map_iff. now exists (b, a).
Qed.

Lemma in_nodes_of {A : Type} (edges : list (A * A)) n :
  In n (nodes_of edges) <-> exists m, adjacent edges n m.
Proof.
  unfold nodes_of, adjacent. rewrite in_app_iff, !in_map_iff. split.
  - intros [[[a b] [E H]]|[[a b] [E H]]]; simpl in E; subst.
    + exists b. now left.
    + exists a. now right.
  - intros [m [H|H]].
    + left. now exists (n, m).
    + right. now exists (m, n).
Qed.

Lemma connected_trans {A : Type} (edges : list (A * A)) a b c :
  connected edges a b -> connected edges b c -> connected edges a c.
Proof.
  induction 1 as [|a b' b Hadj _ IH]; [trivial|].
  intros Hbc. eapply connected_step; eauto.
Qed.

Lemma connected_adjacent {A : Type} (edges : list (A * A)) a b : adjacent edges a b -> connected edges a b.
Proof. intros H. eapply connected_step; [exact H|apply connected_refl]. Qed.

Lemma connected_sym {A : Type} (edges : list (A * A)) a b : connected edges a b -> connected edges b a.
Proof.
  induction 1 as [|a b' b Hadj _ IH]; [apply connected_refl|].
  eapply connected_trans; [exact IH|].
  apply connected_adjacent. now apply adjacent_sym.
Qed.

Lemma connected_node {A : Type} (edges : list (A * A)) a b :
  connected edges a b -> In a (nodes_of edges) -> In b (nodes_of edges).
Proof.
  induction 1 as [|a b' b Hadj _ IH]; [trivial|].
  intros _. apply IH. now apply (adjacent_nodes edges a b').
Qed.

Lemma within_connected {A : Type} (edges : list (A * A)) d a b : within edges d a b -> connected edges a b.
Proof.
  induction 1; [apply connected_refl|eapply connected_step; eauto].
Qed.

Lemma connected_within {A : Type} (edges : list (A * A)) a b :
  connected edges a b -> exists d, within edges d a b.
Proof.
  induction 1 as [|a b' b Hadj _ [d IH]].
  - exists 0. apply within_refl.
  - exists (S d). eapply within_step; eauto.
Qed.

End Graph.

(* ================================================================== *)
(** ** One round of propagation *)

Module Round.
Import Rel RelFacts.

Section OneRound.
Variable edges : Edges.
Variable L : Labels.

Lemma in_equivalences cl cr :
  In (cl, cr) (_get_component_equivalences edges L) <->
  exists a b, In (a, b) edges /\ In (a, cl) L /\ In (b, cr) L.
Proof.
  unfold _get_component_equivalences. rewrite in_distinct, in_map_iff. split.
  - intros [[[b cl'] [b' cr']] [E H]]. simpl in E. inversion E; subst; clear E.
    apply in_inner_join in H as (H1 & H2 & H3). simpl in H3.
    apply N.eqb_eq in H3. unfold record_id in H3. simpl in H3. subst b'.
    apply in_map_iff in H1 as [[[a b0] [a' cl0]] [E H1]].
    simpl in E. inversion E; subst; clear E.
    apply in_inner_join in H1 as (H4 & H5 & H6). simpl in H6.
    apply N.eqb_eq in H6. unfold record_id in H6. simpl in H6. subst a'.
    exists a, b. auto.
  - intros (a & b & Hab & Ha & Hb).
    exists ((b, cl), (b, cr)). split; [reflexivity|].
    apply in_inner_join. repeat split; [|assumption|simpl; apply N.eqb_refl].
    apply in_map_iff. exists ((a, b), (a, cl)). split; [reflexivity|].
    apply in_inner_join. repeat split; [assumption..|simpl; apply N.eqb_refl].
Qed.

Lemma in_update_map c v :
  In (c, v) (_get_component_update_map (_get_component_equivalences edges L)) <->
  candidate edges L c v /\ forall w, candidate edges L c w -> (v <= w)%N.
Proof.
  unfold _get_component_update_map.
  set (eqs := _get_component_equivalences edges L).
  assert (Htog : forall w,
    In (c, w) (union_distinct
                 (map (fun p => (fst p, N.min (fst p) (snd p))) eqs)
                 (map (fun p => (snd p, N.min (fst p) (snd p))) eqs)) <->
    candidate edges L c w).
  { intros w. rewrite in_union_distinct, !in_map_iff. unfold candidate. split.
    - intros [[[cl cr] [E H]]|[[cl cr] [E H]]]; simpl in E;
        injection E as E1 E2;
        apply in_equivalences in H as (a & b & Hab & Ha & Hb);
        exists a, b, cl, cr; rewrite <- E1, <- E2; auto 10.
    - intros (a & b & cl & cr & Hab & Ha & Hb & Hc & Hw). subst w.
      assert (H : In (cl, cr) eqs) by (apply in_equivalences; eauto).
      destruct Hc as [Hc|Hc]; rewrite Hc; [left|right]; exists (cl, cr); auto. }
  rewrite in_group_by_min. rewrite Htog. split.
  - intros [H1 H2]. split; [assumption|]. intros w Hw. apply H2. now apply Htog.
  - intros [H1 H2]. split; [assumption|]. intros w Hw. apply H2. now apply Htog.
Qed.

Lemma NoDup_update_map :
  NoDup (map fst (_get_component_update_map
                    (_get_component_equivalences edges L))).
Proof. unfold _get_component_update_map. apply NoDup_group_by_min. Qed.

Lemma new_label_spec c v :
  new_label edges L c = Some v <->
  candidate edges L c v /\ forall w, candidate edges L c w -> (v <= w)%N.
Proof.
  unfold new_label. rewrite find_key_in by apply NoDup_update_map.
  apply in_update_map.
Qed.

(** The left join finds at most one row of the update map per node, so a
    round relabels the rows one by one. *)
Lemma _updated_labels_rows :
  _updated_labels L edges = map (fun r => (fst r, new_label edges L (snd r))) L.
Proof.
  unfold _updated_labels, new_label, record_id, component.
  rewrite left_join_unique_key by apply NoDup_update_map.
  rewrite map_map. apply map_ext. intros r. reflexivity.
Qed.

Lemma _updated_labels_length :
  length (_updated_labels L edges) = length L.
Proof. rewrite _updated_labels_rows. apply length_map. Qed.

(** A least candidate exists as soon as there is one candidate. *)
Lemma candidate_least c w :
  candidate edges L c w -> exists v, new_label edges L c = Some v.
Proof.
  intros Hw.
  destruct (new_label edges L c) as [v|] eqn:E; [eauto|exfalso].
  unfold new_label in E.
  set (M := _get_component_update_map (_get_component_equivalences edges L)) in *.
  assert (Hno : forall v, ~ In (c, v) M).
  { intros v Hin. apply (find_key_in M c v NoDup_update_map) in Hin.
    rewrite E in Hin. discriminate. }
  (* the group of [c] is not empty, so the group-by has a row for it *)
  unfold M, _get_component_update_map in Hno.
  set (tog := union_distinct _ _) in Hno.
  assert (Hin : In (c, w) tog).
  { unfold tog. rewrite in_union_distinct, !in_map_iff.
    destruct Hw as (a & b & cl & cr & Hab & Ha & Hb & Hc & ->).
    assert (H : In (cl, cr) (_get_component_equivalences edges L))
      by (apply in_equivalences; eauto).
    destruct Hc as [Hc|Hc]; rewrite Hc; [left|right]; exists (cl, cr); auto. }
  destruct (agg_min (map snd (filter (fun r => (fst r =? c)%N) tog))) as [v|] eqn:Em.
  - apply agg_min_spec in Em as [H1 H2].
    apply (Hno v). apply in_group_by_min.
    assert (Hgrp : forall x, In x (map snd (filter (fun r => (fst r =? c)%N) tog))
                              <-> In (c, x) tog).
    { intros x. rewrite in_map_iff. split.
      - intros [[k y] [Ex H]]. simpl in Ex. subst y.
        apply filter_In in H as [H Ek]. simpl in Ek. apply N.eqb_eq in Ek. now subst.
      - intros H. exists (c, x). split; [reflexivity|].
        apply filter_In. split; [assumption|simpl; apply N.eqb_refl]. }
    split; [now apply Hgrp|]. intros x Hx. apply H2. now apply Hgrp.
  - assert (Hn : In w (map snd (filter (fun r => (fst r =? c)%N) tog))).
    { apply in_map_iff. exists (c, w). split; [reflexivity|].
      apply filter_In. split; [assumption|simpl; apply N.eqb_refl]. }
    destruct (map snd _); [contradiction|discriminate].
Qed.

End OneRound.

End Round.

(* ================================================================== *)
(** ** Tables of labels *)

Module Rows.
Import Rel RelFacts.

Lemma nodup_diag (l : list N) :
  nodup row_eq_dec (map (fun n => (n, n)) l) =
  map (fun n => (n, n)) (nodup N.eq_dec l).
Proof.
  induction l as [|x l IH]; simpl; [reflexivity|].
  destruct (in_dec row_eq_dec (x, x) (map (fun n => (n, n)) l)) as [H|H];
    destruct (in_dec N.eq_dec x l) as [H'|H']; simpl; rewrite IH; try reflexivity.
  - exfalso. apply in_map_iff in H as [y [E Hy]]. inversion E; subst. contradiction.
  - exfalso. apply H. apply in_map_iff. now exists x.
Qed.

Lemma initial_labels_diag edges :
  _get_initial_labels edges = map (fun n => (n, n)) (distinct_nodes edges).
Proof.
  unfold _get_initial_labels, union_distinct, distinct, distinct_nodes, nodes_of.
  rewrite <- nodup_diag, map_app, !map_map. reflexivity.
Qed.

Lemma initial_ids edges :
  map record_id (_get_initial_labels edges) = distinct_nodes edges.
Proof.
  rewrite initial_labels_diag, map_map. unfold record_id. simpl.
  apply map_id.
Qed.

Lemma in_ids (L : Labels) n : In n (map record_id L) <-> exists c, In (n, c) L.
Proof.
  rewrite in_map_iff. split.
  - intros [[n' c] [E H]]. unfold record_id in E. simpl in E. subst. eauto.
  - intros [c H]. now exists (n, c).
Qed.

(** With unique record ids a node has one row. *)
Lemma row_unique (L : Labels) n c c' :
  NoDup (map record_id L) -> In (n, c) L -> In (n, c') L -> c = c'.
Proof.
  induction L as [|[m d] L IH]; simpl; intros Hnd H1 H2; [contradiction|].
  inversion Hnd as [|? ? Hm Hnd']; subst.
  destruct H1 as [H1|H1], H2 as [H2|H2].
  - congruence.
  - inversion H1; subst. exfalso. apply Hm. apply in_ids. eauto.
  - inversion H2; subst. exfalso. apply Hm. apply in_ids. eauto.
  - eauto.
Qed.

Lemma non_null_rows g (L L' : Labels) :
  non_null (map (fun r => (fst r, g (snd r))) L) = Some L' ->
  relabelled g L L'.
Proof.
  revert L'. induction L as [|[n c] L IH]; simpl; intros L' H.
  - inversion H. constructor.
  - destruct (g c) as [v|] eqn:E; [|discriminate].
    destruct (non_null _) as [T|]; [|discriminate].
    simpl in H. inversion H; subst; clear H.
    constructor; [|now apply IH]. simpl. auto.
Qed.

Lemma non_null_defined g (L : Labels) :
  (forall r, In r L -> g (snd r) <> None) ->
  exists L', non_null (map (fun r => (fst r, g (snd r))) L) = Some L'.
Proof.
  induction L as [|[n c] L IH]; simpl; intros H; [eauto|].
  destruct (g c) as [v|] eqn:E.
  - destruct IH as [L' E']; [intros r Hr; apply H; now right|].
    rewrite E'. simpl. eauto.
  - exfalso. apply (H (n, c)); [now left|assumption].
Qed.

Lemma non_null_has_none (T : NullableLabels) :
  non_null T = None <-> exists n, In (n, None) T.
Proof.
  induction T as [|[n [c|]] T IH]; simpl.
  - split; [discriminate|intros [n []]].
  - destruct (non_null T) as [T'|]; simpl.
    + split; [discriminate|]. intros [m [H|H]]; [discriminate|].
      destruct IH as [_ IH]. discriminate IH. eauto.
    + split; [|reflexivity]. intros _. destruct IH as [IH _].
      destruct IH as [m H]; eauto.
  - split; [eauto|reflexivity].
Qed.

Lemma relabelled_ids g L L' :
  relabelled g L L' -> map record_id L' = map record_id L.
Proof. induction 1 as [|r r' L L' [E _] _ IH]; simpl; congruence. Qed.

Lemma relabelled_length g L L' : relabelled g L L' -> length L' = length L.
Proof.
  intros H. apply relabelled_ids in H.
  rewrite <- (length_map record_id L'), H. apply length_map.
Qed.

Lemma relabelled_forward g L L' n c :
  relabelled g L L' -> In (n, c) L ->
  exists c', In (n, c') L' /\ g c = Some c'.
Proof.
  induction 1 as [|r [n' c'] L L' [E1 E2] _ IH]; simpl; [contradiction|].
  intros [H|H].
  - subst r. unfold record_id, component in *. simpl in *. subst n'. eauto.
  - destruct (IH H) as [d [H1 H2]]. eauto.
Qed.

Lemma relabelled_backward g L L' n c' :
  relabelled g L L' -> In (n, c') L' ->
  exists c, In (n, c) L /\ g c = Some c'.
Proof.
  induction 1 as [|[n0 c0] r' L L' [E1 E2] _ IH]; simpl; [contradiction|].
  intros [H|H].
  - subst r'. unfold record_id, component in *. simpl in *. subst n0. eauto.
  - destruct (IH H) as [d [H1 H2]]. eauto.
Qed.

(** A relabelling that moves no label is the identity. *)
Lemma relabelled_same g L L' :
  relabelled g L L' ->
  (forall r, In r L -> g (component r) = Some (component r)) -> L' = L.
Proof.
  induction 1 as [|[n c] [n' c'] L L' [E1 E2] _ IH]; intros Hfix; [reflexivity|].
  unfold record_id, component in *. simpl in *. subst n'.
  pose proof (Hfix (n, c) (or_introl eq_refl)) as Hc. simpl in Hc.
  rewrite Hc in E2. inversion E2; subst.
  f_equal. apply IH. intros r Hr. apply Hfix. now right.
Qed.

Lemma label_sum_relabelled g L L' :
  relabelled g L L' ->
  (forall c v, g c = Some v -> (v <= c)%N) ->
  (label_sum L' <= label_sum L)%N /\
  (L' <> L -> (label_sum L' < label_sum L)%N).
Proof.
  intros H Hle.
  induction H as [|[n c] [n' c'] L L' [E1 E2] _ [IH1 IH2]]; simpl.
  - split; [lia|congruence].
  - unfold record_id, component in *. simpl in *. subst n'.
    pose proof (Hle _ _ E2) as Hc. split; [lia|].
    intros Hne. destruct (N.eq_dec c' c) as [->|Hcc]; [|lia].
    assert (L' <> L) by congruence. specialize (IH2 H). lia.
Qed.

(** [_n_updates] is zero exactly when the round changed no label. *)
Lemma _n_updates_zero g (L L' : Labels) :
  NoDup (map record_id L) ->
  relabelled g L L' ->
  (_n_updates L (map (fun r => (fst r, g (snd r))) L) = 0 <-> L' = L).
Proof.
  intros Hnd Hrel. unfold _n_updates. rewrite length_zero_iff_nil. split.
  - intros Hnil. apply (relabelled_same g); [assumption|].
    intros [n c] Hr. unfold component. simpl.
    destruct (relabelled_forward g L L' n c Hrel Hr) as [c' [_ Hg]].
    rewrite Hg. f_equal.
    destruct (N.eq_dec c' c) as [|Hne]; [assumption|exfalso].
    assert (Hin : In ((n, c), (n, Some c'))
                     (inner_join
                        (fun (l : N * N) (x : N * option N) =>
                           (record_id l =? fst x)%N &&
                           match snd x with
                           | Some d => negb (component l =? d)%N
                           | None => false
                           end) L (map (fun r => (fst r, g (snd r))) L))).
    { apply in_inner_join. repeat split; [assumption| |].
      - apply in_map_iff. exists (n, c). simpl. rewrite Hg. auto.
      - unfold record_id, component. simpl. rewrite N.eqb_refl. simpl.
        apply negb_true_iff. apply N.eqb_neq. congruence. }
    rewrite Hnil in Hin. contradiction.
  - intros ->.
    destruct (inner_join _ _ _) as [|[[n c] [m o]] rest] eqn:E; [reflexivity|exfalso].
    assert (Hin : In ((n, c), (m, o)) (inner_join
                        (fun (l : N * N) (x : N * option N) =>
                           (record_id l =? fst x)%N &&
                           match snd x with
                           | Some d => negb (component l =? d)%N
                           | None => false
                           end) L (map (fun r => (fst r, g (snd r))) L)))
      by (rewrite E; now left).
    apply in_inner_join in Hin as (H1 & H2 & H3).
    apply andb_true_iff in H3 as [H3 H4].
    unfold record_id, component in *. simpl in *.
    apply N.eqb_eq in H3. subst m.
    apply in_map_iff in H2 as [[n' d] [Er Hr]]. simpl in Er.
    inversion Er; subst; clear Er.
    destruct (relabelled_forward g L L n d Hrel Hr) as [d' [Hd' Hg]].
    pose proof (row_unique L n _ _ Hnd Hr Hd'). subst d'.
    pose proof (row_unique L n _ _ Hnd Hr H1). subst d.
    rewrite Hg in H4. rewrite N.eqb_refl in H4. discriminate.
Qed.

End Rows.

(* ================================================================== *)
(** ** The invariant of the propagation loop *)

Module Invariant.
Import Rel RelFacts Graph Round Rows.

Lemma ok_initial edges : labelling_ok edges (_get_initial_labels edges).
Proof.
  split; [reflexivity|].
  intros n c H. rewrite initial_labels_diag in H.
  apply in_map_iff in H as [m [E _]]. inversion E; subst.
  split; [apply connected_refl|lia].
Qed.

Lemma ok_NoDup edges L : labelling_ok edges L -> NoDup (map record_id L).
Proof.
  intros [H _]. rewrite H, initial_ids. apply NoDup_nodup.
Qed.

Lemma ok_cover edges L n :
  labelling_ok edges L -> (In n (map record_id L) <-> In n (nodes_of edges)).
Proof.
  intros [H _]. rewrite H, initial_ids. apply nodup_In.
Qed.

Lemma ok_length edges L :
  labelling_ok edges L -> length L = length (distinct_nodes edges).
Proof.
  intros [H _]. rewrite <- (length_map record_id L), H, initial_ids. reflexivity.
Qed.

Lemma ok_row edges L n :
  labelling_ok edges L -> In n (nodes_of edges) -> exists c, In (n, c) L.
Proof. intros H Hn. apply in_ids. now apply (ok_cover edges L n H). Qed.

Lemma candidate_le edges L c w : candidate edges L c w -> (w <= c)%N.
Proof.
  intros (a & b & cl & cr & _ & _ & _ & [-> | ->] & ->); lia.
Qed.

Lemma new_label_le edges L c v : new_label edges L c = Some v -> (v <= c)%N.
Proof.
  intros H. apply new_label_spec in H as [H _]. now apply (candidate_le edges L).
Qed.

Lemma candidate_connected edges L c w :
  labelling_ok edges L -> candidate edges L c w -> connected edges c w.
Proof.
  intros Hok (a & b & cl & cr & Hab & Ha & Hb & Hc & Hw).
  destruct (ok_label _ _ Hok _ _ Ha) as [Ca _].
  destruct (ok_label _ _ Hok _ _ Hb) as [Cb _].
  assert (Clr : connected edges cl cr).
  { apply connected_trans with a; [now apply connected_sym|].
    apply connected_step with b; [now left|assumption]. }
  destruct (N.min_spec cl cr) as [[_ E]|[_ E]]; rewrite E in Hw; subst w;
    destruct Hc as [Hc|Hc]; rewrite Hc;
    first [apply connected_refl | assumption | now apply connected_sym].
Qed.

Lemma new_label_defined edges L n c :
  labelling_ok edges L -> In (n, c) L -> exists v, new_label edges L c = Some v.
Proof.
  intros Hok Hn.
  assert (Hnode : In n (nodes_of edges)).
  { apply (ok_cover edges L n Hok). apply in_ids. eauto. }
  apply in_nodes_of in Hnode as [m Hadj].
  destruct (ok_row edges L m Hok) as [cm Hm];
    [now apply (adjacent_nodes edges n m)|].
  destruct Hadj as [Hadj|Hadj].
  - apply candidate_least with (N.min c cm). exists n, m, c, cm. auto 10.
  - apply candidate_least with (N.min cm c). exists m, n, cm, c. auto 10.
Qed.

(** From a labelling that satisfies the invariant a round finds a new label
    for every row. *)
Lemma round_defined edges L :
  labelling_ok edges L ->
  exists L', non_null (_updated_labels L edges) = Some L'.
Proof.
  intros Hok. rewrite _updated_labels_rows. apply non_null_defined.
  intros [n c] Hr. simpl.
  destruct (new_label_defined edges L n c Hok Hr) as [v E]. congruence.
Qed.

Lemma round_relabelled edges L L' :
  non_null (_updated_labels L edges) = Some L' ->
  relabelled (new_label edges L) L L'.
Proof. rewrite _updated_labels_rows. apply non_null_rows. Qed.

Lemma round_ok edges L L' :
  labelling_ok edges L ->
  non_null (_updated_labels L edges) = Some L' ->
  labelling_ok edges L'.
Proof.
  intros Hok H. apply round_relabelled in H. split.
  - rewrite (relabelled_ids _ _ _ H). apply (ok_ids _ _ Hok).
  - intros n c' Hn.
    destruct (relabelled_backward _ _ _ _ _ H Hn) as [c [Hc Hg]].
    destruct (ok_label _ _ Hok _ _ Hc) as [C Hle].
    pose proof (new_label_le _ _ _ _ Hg).
    apply new_label_spec in Hg as [Hcand _].
    split; [|lia].
    apply connected_trans with c; [assumption|].
    now apply (candidate_connected edges L).
Qed.

Lemma round_input_ok edges L : round_input edges L -> labelling_ok edges L.
Proof.
  induction 1 as [|L L' _ IH H _]; [apply ok_initial|].
  now apply (round_ok edges L).
Qed.

Lemma n_updates_fixpoint edges L :
  labelling_ok edges L ->
  (_n_updates L (_updated_labels L edges) = 0 <-> fixpoint edges L).
Proof.
  intros Hok. unfold fixpoint.
  destruct (round_defined edges L Hok) as [L' E].
  pose proof (round_relabelled _ _ _ E) as Hrel.
  rewrite E. rewrite _updated_labels_rows.
  rewrite (_n_updates_zero _ L L' (ok_NoDup _ _ Hok) Hrel).
  split; congruence.
Qed.

(** At a fixpoint the two ends of an edge carry the same label. *)
Lemma fixpoint_adjacent edges L a b ca cb :
  labelling_ok edges L -> fixpoint edges L ->
  adjacent edges a b -> In (a, ca) L -> In (b, cb) L -> ca = cb.
Proof.
  intros Hok Hfix Hadj Ha Hb.
  apply round_relabelled in Hfix.
  pose proof (ok_NoDup _ _ Hok) as Hnd.
  assert (Hself : forall n c, In (n, c) L -> new_label edges L c = Some c).
  { intros n c Hn.
    destruct (relabelled_forward _ _ _ _ _ Hfix Hn) as [c' [Hc' Hg]].
    pose proof (row_unique L n c c' Hnd Hn Hc') as E. now subst c'. }
  pose proof (Hself _ _ Ha) as Sa. pose proof (Hself _ _ Hb) as Sb.
  apply new_label_spec in Sa as [_ La]. apply new_label_spec in Sb as [_ Lb].
  destruct Hadj as [Hadj|Hadj].
  - assert (candidate edges L ca (N.min ca cb)) by (exists a, b, ca, cb; auto 10).
    assert (candidate edges L cb (N.min ca cb)) by (exists a, b, ca, cb; auto 10).
    specialize (La _ H). specialize (Lb _ H0). lia.
  - assert (candidate edges L ca (N.min cb ca)) by (exists b, a, cb, ca; auto 10).
    assert (candidate edges L cb (N.min cb ca)) by (exists b, a, cb, ca; auto 10).
    specialize (La _ H). specialize (Lb _ H0). lia.
Qed.

Lemma fixpoint_connected edges L a b ca cb :
  labelling_ok edges L -> fixpoint edges L ->
  connected edges a b -> In (a, ca) L -> In (b, cb) L -> ca = cb.
Proof.
  intros Hok Hfix Hconn. revert ca.
  induction Hconn as [a|a m b Hadj _ IH]; intros ca Ha Hb.
  - apply (row_unique L a ca cb (ok_NoDup _ _ Hok) Ha Hb).
  - destruct (ok_row edges L m Hok) as [cm Hm];
      [now apply (adjacent_nodes edges a m)|].
    rewrite (fixpoint_adjacent edges L a m ca cm Hok Hfix Hadj Ha Hm).
    now apply IH.
Qed.

End Invariant.

(* ================================================================== *)
(** ** The propagation loop *)

Module LoopFacts.
Import Rel RelFacts Graph Round Rows Invariant.

(** More fuel does not change a result. *)
Lemma propagate_more_fuel updated edges max_iter fuel : forall fuel' i L r,
  propagate updated edges max_iter fuel i L = Returned r ->
  fuel <= fuel' ->
  propagate updated edges max_iter fuel' i L = Returned r.
Proof.
  induction fuel as [|fuel IH]; intros fuel' i L r H Hle; [discriminate|].
  destruct fuel' as [|fuel']; [lia|].
  simpl in *.
  destruct (negb _); [discriminate|].
  destruct (_ =? 0); [assumption|].
  destruct (non_null _) as [L'|]; [|discriminate].
  destruct (match max_iter with Some m => _ | None => false end); [assumption|].
  apply IH; [assumption|lia].
Qed.

Lemma limit_reached (max_iter : option Z) i :
  match max_iter with Some m => (m <=? i)%Z | None => false end = true ->
  exists m, max_iter = Some m /\ (m <= i)%Z.
Proof.
  destruct max_iter as [m|]; [|discriminate].
  intros H. exists m. split; [reflexivity|now apply Z.leb_le].
Qed.

(** The loop body never fails on a labelling that satisfies the invariant,
    and the sum of the labels is enough fuel. *)
Lemma propagate_returns edges max_iter fuel : forall i L,
  labelling_ok edges L ->
  N.to_nat (label_sum L) < fuel ->
  exists Lr st j,
    propagate _updated_labels edges max_iter fuel i L = Returned (Lr, st, j) /\
    labelling_ok edges Lr /\
    (i <= j)%Z /\
    (st = Converged -> fixpoint edges Lr) /\
    (st = MaxIterReached ->
       exists m Lp, max_iter = Some m /\ (m <= j)%Z /\
                    ~ fixpoint edges Lp /\ labelling_ok edges Lp /\
                    non_null (_updated_labels Lp edges) = Some Lr).
Proof.
  induction fuel as [|fuel IH]; intros i L Hok Hfuel; [lia|].
  simpl. rewrite _updated_labels_length, Nat.eqb_refl. simpl.
  destruct (_n_updates L (_updated_labels L edges) =? 0) eqn:Eupd.
  - apply Nat.eqb_eq in Eupd. apply n_updates_fixpoint in Eupd; [|assumption].
    exists L, Converged, i.
    split; [reflexivity|]. split; [assumption|]. split; [lia|].
    split; [auto|discriminate].
  - apply Nat.eqb_neq in Eupd.
    assert (Hnfix : ~ fixpoint edges L)
      by (intros F; apply Eupd; now apply n_updates_fixpoint).
    destruct (round_defined edges L Hok) as [L' E]. rewrite E.
    pose proof (round_ok edges L L' Hok E) as Hok'.
    destruct (match max_iter with Some m => _ | None => false end) eqn:Cmp.
    + apply limit_reached in Cmp as [m [Em Hm]].
      exists L', MaxIterReached, i.
      split; [reflexivity|]. split; [assumption|]. split; [lia|].
      split; [discriminate|]. intros _. exists m, L. auto.
    + pose proof (round_relabelled _ _ _ E) as Hrel.
      destruct (label_sum_relabelled _ _ _ Hrel (new_label_le edges L))
        as [_ Hlt].
      assert (Hne : L' <> L).
      { intros ->. apply Hnfix. exact E. }
      specialize (Hlt Hne).
      destruct (IH (i + 1)%Z L' Hok') as (Lr & st & j & H1 & H2 & H3 & H4 & H5);
        [lia|].
      exists Lr, st, j.
      split; [assumption|]. split; [assumption|]. split; [lia|]. auto.
Qed.

(** Without a round limit the loop can only be left at a fixpoint. *)
Lemma propagate_unbounded edges fuel : forall i L Lr st j,
  propagate _updated_labels edges None fuel i L = Returned (Lr, st, j) ->
  st = Converged.
Proof.
  induction fuel as [|fuel IH]; intros i L Lr st j H; [discriminate|].
  simpl in H.
  destruct (negb _); [discriminate|].
  destruct (_ =? 0); [now inversion H|].
  destruct (non_null _) as [L'|]; [|discriminate].
  eapply IH; eauto.
Qed.

(** The labelling a run returns is one of the labellings of [round_input]. *)
Lemma propagate_round_input edges max_iter fuel : forall i L Lr st j,
  round_input edges L ->
  propagate _updated_labels edges max_iter fuel i L = Returned (Lr, st, j) ->
  round_input edges Lr.
Proof.
  induction fuel as [|fuel IH]; intros i L Lr st j HL H; [discriminate|].
  simpl in H.
  destruct (negb _); [discriminate|].
  destruct (_ =? 0) eqn:Eupd; [now inversion H; subst|].
  apply Nat.eqb_neq in Eupd.
  destruct (non_null _) as [L'|] eqn:E; [|discriminate].
  assert (HL' : round_input edges L') by now apply round_next with L.
  destruct (match max_iter with Some m => _ | None => false end).
  - now inversion H; subst.
  - now apply (IH (i + 1)%Z L' Lr st j).
Qed.

End LoopFacts.

(* ================================================================== *)
(** ** The examples of the documentation *)

(** The docstring of [connected_components]: the nodes a, b, c, x, y, z
    form the component 0 and the nodes g, h the component 3. *)
Example docstring_components :
  connected_components occurrence_codes 40 docstring_table None None
  = Returned
      {| record_id_type := string_type;
         label_rows :=
           [(VString "a", 0); (VString "b", 0); (VString "c", 0);
            (VString "g", 3); (VString "x", 0); (VString "y", 0);
            (VString "z", 0); (VString "h", 3)]%N |}.
Proof. vm_compute. reflexivity. Qed.

(** A universe with the isolated node w: w comes after the labelled nodes,
    with the label one above the largest label in use. *)
Example isolated_node :
  connected_components occurrence_codes 40 docstring_table
    (Some (NodesColumn (StringColumn ["w"; "a"]%string))) None
  = Returned
      {| record_id_type := string_type;
         label_rows :=
           [(VString "a", 0); (VString "b", 0); (VString "c", 0);
            (VString "g", 3); (VString "x", 0); (VString "y", 0);
            (VString "z", 0); (VString "h", 3); (VString "w", 4)]%N |}.
Proof. vm_compute. reflexivity. Qed.

(** A chain of three edges stopped after one round: every node took the
    label of its neighbour, and only the first two nodes share one. *)
Example chain_one_round :
  _connected_components_ints 5 (chain 3) (Some 1%Z)
  = Returned [(0, 0); (1, 0); (2, 1); (3, 2)]%N.
Proof. vm_compute. reflexivity. Qed.

(** The update map of the first round on the docstring edges. *)
Example docstring_update_map :
  _get_component_update_map
    (_get_component_equivalences docstring_edges
       (_get_initial_labels docstring_edges))
  = [(0, 0); (1, 1); (2, 2); (6, 6); (3, 0); (4, 1); (5, 2); (7, 6)]%N.
Proof. vm_compute. reflexivity. Qed.

(* ================================================================== *)
(** ** Properties of the propagation loop *)

Module Core.
Import Rel RelFacts Graph Round Rows Invariant LoopFacts.

Lemma run_returns edges max_iter fuel :
  enough_fuel edges <= fuel ->
  exists L st j,
    run_rounds fuel edges max_iter = Returned (L, st, j) /\
    labelling_ok edges L /\
    (1 <= j)%Z /\
    (st = Converged -> fixpoint edges L) /\
    (st = MaxIterReached ->
       exists m Lp, max_iter = Some m /\ (m <= j)%Z /\
                    ~ fixpoint edges Lp /\ labelling_ok edges Lp /\
                    non_null (_updated_labels Lp edges) = Some L).
Proof.
  intros Hfuel. unfold run_rounds.
  apply propagate_returns; [apply ok_initial|].
  unfold enough_fuel in Hfuel. lia.
Qed.

Lemma run_round_input edges max_iter fuel L st j :
  run_rounds fuel edges max_iter = Returned (L, st, j) -> round_input edges L.
Proof.
  unfold run_rounds. intros H.
  eapply propagate_round_input; [apply round_first|exact H].
Qed.

(** A run that returned through [n_updates == 0] returned a fixpoint. *)
Lemma run_converged_fixpoint edges max_iter fuel L j :
  run_rounds fuel edges max_iter = Returned (L, Converged, j) ->
  labelling_ok edges L /\ fixpoint edges L.
Proof.
  intros H.
  assert (Hok : labelling_ok edges L)
    by (apply round_input_ok; eapply run_round_input; eauto).
  split; [assumption|].
  set (fuel' := Nat.max fuel (enough_fuel edges)).
  destruct (run_returns edges max_iter fuel') as (L' & st & j' & E & _ & _ & F & _);
    [unfold fuel'; lia|].
  unfold run_rounds in *.
  rewrite (propagate_more_fuel _ _ _ fuel fuel' _ _ _ H) in E
    by (unfold fuel'; lia).
  inversion E; subst. now apply F.
Qed.

(** At a fixpoint two nodes share a label exactly when a path joins them. *)
Lemma fixpoint_same_label edges L a b ca cb :
  labelling_ok edges L -> fixpoint edges L ->
  In (a, ca) L -> In (b, cb) L ->
  (ca = cb <-> connected edges a b).
Proof.
  intros Hok Hfix Ha Hb. split.
  - intros E. subst cb.
    destruct (ok_label _ _ Hok _ _ Ha) as [Ca _].
    destruct (ok_label _ _ Hok _ _ Hb) as [Cb _].
    apply connected_trans with ca; [assumption|now apply connected_sym].
  - intros C. now apply (fixpoint_connected edges L a b).
Qed.

(** At a fixpoint the label of a node is the least code of its component. *)
Lemma fixpoint_min_code edges L n c :
  labelling_ok edges L -> fixpoint edges L -> In (n, c) L ->
  In c (nodes_of edges) /\ connected edges n c /\
  forall m, connected edges n m -> (c <= m)%N.
Proof.
  intros Hok Hfix Hn.
  destruct (ok_label _ _ Hok _ _ Hn) as [C Hle].
  assert (Hnode : In n (nodes_of edges)).
  { apply (ok_cover edges L n Hok). apply in_ids. eauto. }
  split; [now apply (connected_node edges n c)|]. split; [assumption|].
  intros m Cm.
  destruct (ok_row edges L m Hok) as [cm Hm];
    [now apply (connected_node edges n m)|].
  rewrite (fixpoint_connected edges L n m c cm Hok Hfix Cm Hn Hm).
  now destruct (ok_label _ _ Hok _ _ Hm).
Qed.

Lemma non_null_length (T : NullableLabels) : forall L,
  non_null T = Some L -> length L = length T.
Proof.
  induction T as [|[n [c|]] T IH]; simpl; intros L H.
  - now inversion H.
  - destruct (non_null T) as [L'|]; [|discriminate].
    simpl in H. inversion H; subst. simpl. f_equal. now apply IH.
  - discriminate.
Qed.

(** Whatever the round function does, a labelling that the loop returns has
    as many rows as the labelling the loop started from. *)
Lemma propagate_length updated edges max_iter fuel : forall i labels L st j,
  propagate updated edges max_iter fuel i labels = Returned (L, st, j) ->
  length L = length labels.
Proof.
  induction fuel as [|fuel IH]; intros i labels L st j H; [discriminate|].
  simpl in H.
  destruct (length labels =? length (updated labels edges)) eqn:Elen;
    [|discriminate].
  apply Nat.eqb_eq in Elen. simpl in H.
  destruct (_ =? 0); [now inversion H|].
  destruct (non_null _) as [L'|] eqn:E; [|discriminate].
  apply non_null_length in E.
  destruct (match max_iter with Some m => _ | None => false end).
  - inversion H; subst. lia.
  - apply IH in H. lia.
Qed.

(** Without a round limit the loop returns, and two nodes carry the same
    label in what it returns exactly when a path joins them. *)
Lemma run_same_label edges fuel :
  enough_fuel edges <= fuel ->
  exists L j,
    run_rounds fuel edges None = Returned (L, Converged, j) /\
    _connected_components_ints fuel edges None = Returned L /\
    (forall n, In n (map record_id L) <-> In n (nodes_of edges)) /\
    (forall a b ca cb,
        In (a, ca) L -> In (b, cb) L -> (ca = cb <-> connected edges a b)).
Proof.
  intros Hfuel.
  destruct (run_returns edges None fuel Hfuel) as (L & st & j & E & Hok & _).
  pose proof (propagate_unbounded _ _ _ _ _ _ _ E). subst st.
  destruct (run_converged_fixpoint _ _ _ _ _ E) as [_ Hfix].
  exists L, j. split; [assumption|]. split; [|split].
  - unfold _connected_components_ints. now rewrite E.
  - intros n. now apply ok_cover.
  - intros a b ca cb. now apply fixpoint_same_label.
Qed.

End Core.

(** C9: in every round the update map sends an old label to a label that is
    not above it, the least representative of the pairs that hold it, and so
    the new label of every node is at most its previous label. *)
Theorem labels_never_increase (edges : Edges) (labels : Labels) :
  round_input edges labels ->
  (forall old new,
      In (old, new) (_get_component_update_map
                       (_get_component_equivalences edges labels)) ->
      (new <= old)%N /\
      candidate edges labels old new /\
      forall w, candidate edges labels old w -> (new <= w)%N) /\
  (forall n c c',
      In (n, c) labels -> In (n, Some c') (_updated_labels labels edges) ->
      (c' <= c)%N).
Proof.
  intros Hin. pose proof (Invariant.round_input_ok _ _ Hin) as Hok. split.
  - intros old new H. apply Round.in_update_map in H as [H1 H2].
    split; [now apply (Invariant.candidate_le edges labels)|]. now split.
  - intros n c c' Hn Hnew.
    rewrite Round._updated_labels_rows in Hnew.
    apply in_map_iff in Hnew as [[n' d] [E Hd]]. simpl in E.
    inversion E; subst; clear E.
    pose proof (Rows.row_unique labels n c d (Invariant.ok_NoDup _ _ Hok) Hn Hd).
    subst d. now apply (Invariant.new_label_le edges labels).
Qed.

(** The theorem at the first round on the docstring edges. *)
Lemma labels_never_increase_witness :
  round_input docstring_edges (_get_initial_labels docstring_edges) /\
  (forall n c c',
      In (n, c) (_get_initial_labels docstring_edges) ->
      In (n, Some c')
         (_updated_labels (_get_initial_labels docstring_edges) docstring_edges) ->
      (c' <= c)%N).
Proof.
  split; [apply round_first|].
  apply (labels_never_increase docstring_edges _ (round_first docstring_edges)).
Defined.

(** C10: in every round every label held by some node is a [component_old]
    key of the update map, so the left join of [_updated_labels] finds a
    match for every row and the new labelling holds no NULL component. *)
Theorem update_map_covers_labels (edges : Edges) (labels : Labels) :
  round_input edges labels ->
  (forall n c,
      In (n, c) labels ->
      In c (map fst (_get_component_update_map
                       (_get_component_equivalences edges labels)))) /\
  (forall n, ~ In (n, None) (_updated_labels labels edges)) /\
  (exists labels', non_null (_updated_labels labels edges) = Some labels').
Proof.
  intros Hin. pose proof (Invariant.round_input_ok _ _ Hin) as Hok.
  pose proof (Invariant.round_defined edges labels Hok) as [L' E].
  split; [|split; [|eauto]].
  - intros n c Hn.
    destruct (Invariant.new_label_defined edges labels n c Hok Hn) as [v Hv].
    unfold new_label in Hv.
    apply (RelFacts.find_key_in _ c v (Round.NoDup_update_map edges labels)) in Hv.
    apply in_map_iff. now exists (c, v).
  - intros n Hn.
    assert (H : non_null (_updated_labels labels edges) = None)
      by (apply Rows.non_null_has_none; eauto).
    congruence.
Qed.

(** The theorem at the first round on the docstring edges. *)
Lemma update_map_covers_labels_witness :
  round_input docstring_edges (_get_initial_labels docstring_edges) /\
  (forall n, ~ In (n, None)
                  (_updated_labels (_get_initial_labels docstring_edges)
                                   docstring_edges)).
Proof.
  split; [apply round_first|].
  apply (update_map_covers_labels docstring_edges _ (round_first docstring_edges)).
Defined.

(** C4: in every round the new labelling has as many rows as the previous
    one, which is the number of distinct nodes of the edge table; and when a
    round function breaks this, the [assert] of the loop raises: the loop
    never returns a labelling whose row count differs from the one it
    started with. *)
Theorem row_count_invariant (edges : Edges) :
  (forall labels,
      round_input edges labels ->
      length (_updated_labels labels edges) = length labels /\
      length labels = length (distinct_nodes edges)) /\
  (forall updated max_iter fuel i labels,
      length (updated labels edges) <> length labels ->
      propagate updated edges max_iter (S fuel) i labels
      = Raised AssertionError) /\
  (forall updated max_iter fuel i labels L st j,
      propagate updated edges max_iter fuel i labels = Returned (L, st, j) ->
      length L = length labels).
Proof.
  split; [|split].
  - intros labels Hin. split.
    + apply Round._updated_labels_length.
    + apply Invariant.ok_length. now apply Invariant.round_input_ok.
  - intros updated max_iter fuel i labels Hne. simpl.
    destruct (length labels =? length (updated labels edges)) eqn:E;
      [|reflexivity].
    apply Nat.eqb_eq in E. congruence.
  - intros updated max_iter fuel. apply Core.propagate_length.
Qed.

(** The theorem at the first round on the docstring edges, and at a round
    function that adds a row. *)
Lemma row_count_invariant_witness :
  length (_updated_labels (_get_initial_labels docstring_edges) docstring_edges)
  = length (_get_initial_labels docstring_edges) /\
  propagate (fun labels _ => (0%N, Some 0%N) :: _updated_labels labels docstring_edges)
            docstring_edges None 1 1%Z (_get_initial_labels docstring_edges)
  = Raised AssertionError.
Proof.
  destruct (row_count_invariant docstring_edges) as [H1 [H2 _]]. split.
  - apply (H1 _ (round_first docstring_edges)).
  - apply H2. vm_compute. lia.
Defined.






(* ================================================================== *)
(** ** The loop on a chain coded along the path *)

Module Chain.
Import Rel RelFacts Graph Round Rows Invariant LoopFacts.

Lemma in_chain k a b :
  In (a, b) (chain k) <-> exists i, i < k /\ a = N.of_nat i /\ b = N.of_nat (S i).
Proof.
  unfold chain. rewrite in_map_iff. split.
  - intros [i [E H]]. apply in_seq in H. inversion E; subst. exists i.
    repeat split; lia.
  - intros (i & Hi & -> & ->). exists i. split; [reflexivity|].
    apply in_seq. lia.
Qed.

Lemma in_chain_labels k r a c :
  In (a, c) (chain_labels k r) <->
  exists n, n <= k /\ a = N.of_nat n /\ c = N.of_nat (n - r).
Proof.
  unfold chain_labels. rewrite in_map_iff. split.
  - intros [n [E H]]. apply in_seq in H. inversion E; subst. exists n.
    repeat split; lia.
  - intros (n & Hn & -> & ->). exists n. split; [reflexivity|].
    apply in_seq. lia.
Qed.

Lemma nodup_absorb (l r : list N) :
  (forall y, In y l -> In y r) -> NoDup r -> nodup N.eq_dec (l ++ r) = r.
Proof.
  intros Hsub Hnd. induction l as [|y l IH]; simpl.
  - now apply nodup_fixed_point.
  - destruct (in_dec N.eq_dec y (l ++ r)) as [_|Hn].
    + apply IH. intros z Hz. apply Hsub. now right.
    + exfalso. apply Hn. apply in_app_iff. right. apply Hsub. now left.
Qed.

Lemma chain_nodes k :
  distinct_nodes (chain (S k)) = map N.of_nat (seq 0 (S (S k))).
Proof.
  assert (E : nodes_of (chain (S k)) =
              0%N :: (map N.of_nat (seq 1 k) ++ map N.of_nat (seq 1 (S k)))).
  { unfold nodes_of, chain. rewrite !map_map. cbn [fst snd].
    rewrite <- (map_map S N.of_nat), seq_shift. reflexivity. }
  unfold distinct_nodes. rewrite E.
  assert (Hnd : NoDup (map N.of_nat (seq 1 (S k)))).
  { apply Injective_map_NoDup; [exact Nat2N.inj|apply seq_NoDup]. }
  assert (Hsub : forall y, In y (map N.of_nat (seq 1 k)) ->
                           In y (map N.of_nat (seq 1 (S k)))).
  { intros y Hy. apply in_map_iff in Hy as [x [Ex Hx]]. apply in_seq in Hx.
    apply in_map_iff. exists x. split; [assumption|]. apply in_seq. lia. }
  change (seq 0 (S (S k))) with (0 :: seq 1 (S k)).
  rewrite map_cons. change (N.of_nat 0) with 0%N.
  remember (map N.of_nat (seq 1 k)) as l eqn:El.
  remember (map N.of_nat (seq 1 (S k))) as r eqn:Er.
  cbn [nodup].
  destruct (in_dec N.eq_dec 0%N (l ++ r)) as [Hin|_].
  - exfalso. assert (Hr : In 0%N r).
    { apply in_app_iff in Hin. destruct Hin; auto. }
    rewrite Er in Hr. apply in_map_iff in Hr as [x [Ex Hx]].
    apply in_seq in Hx. lia.
  - f_equal. now apply nodup_absorb.
Qed.

Lemma chain_initial k : _get_initial_labels (chain (S k)) = chain_labels (S k) 0.
Proof.
  rewrite initial_labels_diag, chain_nodes. unfold chain_labels.
  rewrite map_map. apply map_ext. intros n. now rewrite Nat.sub_0_r.
Qed.

(** One round lowers by one the label of every node that is not at 0. *)
Lemma chain_new_label k r n :
  n <= S k ->
  new_label (chain (S k)) (chain_labels (S k) r) (N.of_nat (n - r))
  = Some (N.of_nat (n - S r)).
Proof.
  intros Hn. apply new_label_spec. split.
  - destruct n as [|n'].
    + exists (N.of_nat 0), (N.of_nat 1), (N.of_nat (0 - r)), (N.of_nat (1 - r)).
      split; [apply in_chain; exists 0; repeat split; lia|].
      split; [apply in_chain_labels; exists 0; repeat split; lia|].
      split; [apply in_chain_labels; exists 1; repeat split; lia|].
      split; [now left|]. lia.
    + exists (N.of_nat n'), (N.of_nat (S n')),
             (N.of_nat (n' - r)), (N.of_nat (S n' - r)).
      split; [apply in_chain; exists n'; repeat split; lia|].
      split; [apply in_chain_labels; exists n'; repeat split; lia|].
      split; [apply in_chain_labels; exists (S n'); repeat split; lia|].
      split; [now right|]. lia.
  - intros w (a & b & cl & cr & Hab & Ha & Hb & Hc & ->).
    apply in_chain in Hab as (i & Hi & -> & ->).
    apply in_chain_labels in Ha as (n1 & _ & E1 & ->).
    apply in_chain_labels in Hb as (n2 & _ & E2 & ->).
    apply Nat2N.inj in E1, E2. subst n1 n2. lia.
Qed.

Lemma non_null_some (f : N * N -> N) (L : Labels) :
  non_null (map (fun r => (fst r, Some (f r))) L)
  = Some (map (fun r => (fst r, f r)) L).
Proof.
  induction L as [|r L IH]; simpl; [reflexivity|]. now rewrite IH.
Qed.

Lemma chain_round k r :
  non_null (_updated_labels (chain_labels (S k) r) (chain (S k)))
  = Some (chain_labels (S k) (S r)).
Proof.
  rewrite _updated_labels_rows.
  transitivity (non_null (map (fun row : N * N =>
                                 (fst row, Some (N.pred (snd row))))
                              (chain_labels (S k) r))).
  - f_equal. apply map_ext_in. intros [a c] Hin. simpl.
    apply in_chain_labels in Hin as (n & Hn & -> & ->).
    rewrite chain_new_label by assumption. repeat f_equal. lia.
  - rewrite (non_null_some (fun row => N.pred (snd row))).
    unfold chain_labels. rewrite map_map. apply f_equal. apply map_ext.
    intros n. simpl. f_equal. lia.
Qed.

Lemma chain_labels_moved k r : r < k -> chain_labels k (S r) <> chain_labels k r.
Proof.
  intros Hr E.
  assert (H : In (N.of_nat k, N.of_nat (k - S r)) (chain_labels k r)).
  { rewrite <- E. apply in_chain_labels. exists k. repeat split; lia. }
  apply in_chain_labels in H as (n & _ & E1 & E2).
  apply Nat2N.inj in E1, E2. lia.
Qed.

Lemma chain_labels_settled k r : k <= r -> chain_labels k (S r) = chain_labels k r.
Proof.
  intros Hr. unfold chain_labels. apply map_ext_in. intros n Hn.
  apply in_seq in Hn. replace (n - S r) with (n - r) by lia. reflexivity.
Qed.

Lemma chain_fixpoint k r :
  fixpoint (chain (S k)) (chain_labels (S k) r) <-> S k <= r.
Proof.
  unfold fixpoint. rewrite chain_round. split.
  - intros E. destruct (le_lt_dec (S k) r) as [|Hlt]; [assumption|exfalso].
    apply (chain_labels_moved (S k) r Hlt). congruence.
  - intros Hr. f_equal. now apply chain_labels_settled.
Qed.

Lemma chain_round_input k r :
  r <= S k -> round_input (chain (S k)) (chain_labels (S k) r).
Proof.
  induction r as [|r IH]; intros Hr.
  - rewrite <- chain_initial. apply round_first.
  - assert (Hin : round_input (chain (S k)) (chain_labels (S k) r))
      by (apply IH; lia).
    apply round_next with (chain_labels (S k) r);
      [assumption|apply chain_round|].
    rewrite (n_updates_fixpoint _ _ (round_input_ok _ _ Hin)).
    rewrite chain_fixpoint. lia.
Qed.

Lemma chain_n_updates k r :
  r <= S k ->
  (_n_updates (chain_labels (S k) r)
              (_updated_labels (chain_labels (S k) r) (chain (S k))) = 0
   <-> S k <= r).
Proof.
  intros Hr.
  rewrite (n_updates_fixpoint _ _ (round_input_ok _ _ (chain_round_input k r Hr))).
  apply chain_fixpoint.
Qed.

(** The body of the loop on a labelling of the chain. *)
Lemma chain_step k max_iter fuel i r :
  r <= S k ->
  propagate _updated_labels (chain (S k)) max_iter (S fuel) i
            (chain_labels (S k) r)
  = if S k <=? r then Returned (chain_labels (S k) r, Converged, i)
    else if match max_iter with Some m => (m <=? i)%Z | None => false end
         then Returned (chain_labels (S k) (S r), MaxIterReached, i)
         else propagate _updated_labels (chain (S k)) max_iter fuel (i + 1)%Z
                        (chain_labels (S k) (S r)).
Proof.
  intros Hr. cbn [propagate].
  rewrite _updated_labels_length, Nat.eqb_refl. cbn [negb].
  pose proof (chain_n_updates k r Hr) as Hupd.
  destruct (S k <=? r) eqn:Ek.
  - apply Nat.leb_le in Ek. apply Hupd in Ek. now rewrite Ek.
  - apply Nat.leb_gt in Ek.
    destruct (_n_updates _ _ =? 0) eqn:E.
    + apply Nat.eqb_eq in E. apply Hupd in E. lia.
    + now rewrite chain_round.
Qed.

(** Without a limit the loop that enters round [i] with the labels [r]
    below the codes returns [k - r] rounds later. *)
Lemma chain_unbounded k d : forall r i fuel,
  r + d = S k -> d < fuel ->
  propagate _updated_labels (chain (S k)) None fuel i (chain_labels (S k) r)
  = Returned (chain_labels (S k) (S k), Converged, (i + Z.of_nat d)%Z).
Proof.
  induction d as [|d IH]; intros r i fuel Hr Hfuel;
    (destruct fuel as [|fuel]; [lia|]); rewrite chain_step by lia.
  - assert (E : r = S k) by lia. subst r. rewrite Nat.leb_refl.
    now rewrite Z.add_0_r.
  - assert (E : (S k <=? r) = false) by (apply Nat.leb_gt; lia). rewrite E.
    rewrite (IH (S r) (i + 1)%Z fuel) by lia.
    replace (i + 1 + Z.of_nat d)%Z with (i + Z.of_nat (S d))%Z by lia.
    reflexivity.
Qed.

(** With the limit [m] the loop that enters round [i <= m] before the
    labels settled returns the labelling of round [m]. *)
Lemma chain_bounded k m d : forall r i fuel,
  (i + Z.of_nat d = m)%Z -> r + d < S k -> d < fuel ->
  propagate _updated_labels (chain (S k)) (Some m) fuel i (chain_labels (S k) r)
  = Returned (chain_labels (S k) (S (r + d)), MaxIterReached, m).
Proof.
  induction d as [|d IH]; intros r i fuel Hi Hr Hfuel;
    (destruct fuel as [|fuel]; [lia|]); rewrite chain_step by lia;
    (assert (E : (S k <=? r) = false) by (apply Nat.leb_gt; lia)); rewrite E.
  - assert (Hm : (m <=? i)%Z = true) by (apply Z.leb_le; lia).
    rewrite Hm, Nat.add_0_r. replace i with m by lia. reflexivity.
  - assert (Hm : (m <=? i)%Z = false) by (apply Z.leb_gt; lia).
    rewrite Hm. rewrite (IH (S r) (i + 1)%Z fuel) by lia.
    replace (S r + d) with (r + S d) by lia. reflexivity.
Qed.

End Chain.

(* ================================================================== *)
(** ** Rounds and diameter *)

Module Diameter.
Import Rel RelFacts Graph Round Rows Invariant LoopFacts.

Lemma near_initial edges : near edges (_get_initial_labels edges) 0.
Proof.
  intros n m c Hw Hn. rewrite initial_labels_diag in Hn.
  apply in_map_iff in Hn as [x [E _]]. inversion E; subst.
  inversion Hw; subst. lia.
Qed.

Lemma near_round edges L L' r :
  labelling_ok edges L -> near edges L r ->
  non_null (_updated_labels L edges) = Some L' ->
  near edges L' (S r).
Proof.
  intros Hok Hnear E n m c' Hw Hn.
  apply round_relabelled in E.
  destruct (relabelled_backward _ _ _ _ _ E Hn) as [c [Hc Hg]].
  pose proof (new_label_le _ _ _ _ Hg) as Hle.
  inversion Hw as [d a|d a b c0 Hadj Hw']; subst.
  - destruct (ok_label _ _ Hok _ _ Hc). lia.
  - destruct (ok_row edges L b Hok) as [cb Hb];
      [now apply (adjacent_nodes edges n b)|].
    pose proof (Hnear _ _ _ Hw' Hb) as Hbm.
    apply new_label_spec in Hg as [_ Hmin].
    assert (Hcand : candidate edges L c (N.min c cb)).
    { destruct Hadj as [Hadj|Hadj].
      - exists n, b, c, cb. auto 10.
      - exists b, n, cb, c. repeat split; auto. lia. }
    specialize (Hmin _ Hcand). lia.
Qed.

Lemma near_fixpoint edges L d :
  labelling_ok edges L -> near edges L d -> diameter_le edges d ->
  fixpoint edges L.
Proof.
  intros Hok Hnear Hdiam. unfold fixpoint.
  destruct (round_defined edges L Hok) as [L' E]. rewrite E. f_equal.
  apply (relabelled_same (new_label edges L)); [now apply round_relabelled|].
  intros [n c] Hn. unfold component. simpl.
  destruct (new_label_defined edges L n c Hok Hn) as [v Hv]. rewrite Hv. f_equal.
  pose proof (new_label_le _ _ _ _ Hv) as Hle.
  apply new_label_spec in Hv as [Hcand _].
  pose proof (candidate_connected edges L c v Hok Hcand) as Ccv.
  destruct (ok_label _ _ Hok _ _ Hn) as [Cnc _].
  pose proof (Hnear n v c (Hdiam _ _ (connected_trans _ _ _ _ Cnc Ccv)) Hn).
  lia.
Qed.

(** The loop returns at most [d - r] rounds after the round it enters with
    labels that are [near] at distance [r]. *)
Lemma propagate_within_diameter edges max_iter d rem : forall r i fuel L,
  labelling_ok edges L -> near edges L r -> diameter_le edges d ->
  r + rem = d -> rem < fuel ->
  exists Lr st j,
    propagate _updated_labels edges max_iter fuel i L = Returned (Lr, st, j) /\
    (i <= j <= i + Z.of_nat rem)%Z.
Proof.
  induction rem as [|rem IH]; intros r i fuel L Hok Hnear Hdiam Hr Hfuel;
    (destruct fuel as [|fuel]; [lia|]); cbn [propagate];
    rewrite _updated_labels_length, Nat.eqb_refl; cbn [negb].
  - assert (Hfix : fixpoint edges L).
    { apply near_fixpoint with d; auto. now replace d with r by lia. }
    apply (n_updates_fixpoint edges L Hok) in Hfix. rewrite Hfix. simpl.
    exists L, Converged, i. split; [reflexivity|lia].
  - destruct (_n_updates _ _ =? 0).
    + exists L, Converged, i. split; [reflexivity|lia].
    + destruct (round_defined edges L Hok) as [L' E]. rewrite E.
      destruct (match max_iter with Some m => _ | None => false end).
      * exists L', MaxIterReached, i. split; [reflexivity|lia].
      * destruct (IH (S r) (i + 1)%Z fuel L') as (Lr & st & j & H1 & H2);
          [now apply (round_ok edges L)|now apply (near_round edges L)
          |assumption|lia|lia|].
        exists Lr, st, j. split; [assumption|lia].
Qed.

Lemma run_within_diameter edges d fuel :
  diameter_le edges d -> d < fuel ->
  exists L j,
    run_rounds fuel edges None = Returned (L, Converged, j) /\
    (1 <= j <= 1 + Z.of_nat d)%Z.
Proof.
  intros Hdiam Hfuel. unfold run_rounds.
  destruct (propagate_within_diameter edges None d d 0 1%Z fuel
              (_get_initial_labels edges) (ok_initial edges)
              (near_initial edges) Hdiam eq_refl Hfuel)
    as (L & st & j & E & Hj).
  pose proof (propagate_unbounded _ _ _ _ _ _ _ E). subst st. eauto.
Qed.

End Diameter.

(* ================================================================== *)
(** ** The diameter of a path graph *)

Module Path.
Import Graph.

Lemma within_more {A : Type} (edges : list (A * A)) d a b :
  within edges d a b -> forall d', d <= d' -> within edges d' a b.
Proof.
  induction 1 as [d a|d a b c Hadj _ IH]; intros d' Hd.
  - apply within_refl.
  - destruct d' as [|d']; [lia|].
    apply within_step with b; [assumption|]. apply IH. lia.
Qed.

Lemma within_incl {A : Type} (edges edges' : list (A * A)) d a b :
  incl edges edges' -> within edges d a b -> within edges' d a b.
Proof.
  intros Hincl. induction 1 as [d a|d a b c Hadj _ IH].
  - apply within_refl.
  - apply within_step with b; [|assumption].
    destruct Hadj as [H|H]; [left|right]; now apply Hincl.
Qed.

Lemma within_snoc {A : Type} (edges : list (A * A)) d a b c :
  within edges d a b -> adjacent edges b c -> within edges (S d) a c.
Proof.
  induction 1 as [d a|d a b' b Hadj _ IH]; intros Hbc.
  - apply within_step with c; [assumption|apply within_refl].
  - apply within_step with b'; [assumption|now apply IH].
Qed.

Lemma within_sym {A : Type} (edges : list (A * A)) d a b :
  within edges d a b -> within edges d b a.
Proof.
  induction 1 as [d a|d a b c Hadj _ IH].
  - apply within_refl.
  - apply within_snoc with b; [assumption|now apply adjacent_sym].
Qed.

Lemma path_graph_cons x t :
  path_graph (x :: t) =
  match t with
  | [] => []
  | y :: _ => (x, y) :: path_graph t
  end.
Proof. destruct t; reflexivity. Qed.

Lemma path_graph_incl l1 l2 : incl (path_graph l2) (path_graph (l1 ++ l2)).
Proof.
  induction l1 as [|x l1 IH]; [apply incl_refl|].
  rewrite <- app_comm_cons, path_graph_cons.
  destruct (l1 ++ l2) as [|y t] eqn:E.
  - destruct l2; [apply incl_refl|destruct l1; discriminate].
  - now apply incl_tl.
Qed.

Lemma path_forward q : forall x b,
  In b (x :: q) -> within (path_graph (x :: q)) (length q) x b.
Proof.
  induction q as [|y q IH]; intros x b Hb.
  - destruct Hb as [->|[]]. apply within_refl.
  - destruct Hb as [->|Hb]; [apply within_refl|].
    rewrite path_graph_cons. simpl length.
    apply within_step with y; [left; now left|].
    apply within_incl with (path_graph (y :: q)); [apply incl_tl, incl_refl|].
    now apply IH.
Qed.

Lemma path_between p a b :
  In a p -> In b p -> within (path_graph p) (length p - 1) a b.
Proof.
  assert (Hfwd : forall l1 x l2 y,
             In y (x :: l2) ->
             within (path_graph (l1 ++ x :: l2)) (length (l1 ++ x :: l2) - 1) x y).
  { intros l1 x l2 y Hy.
    apply within_more with (length l2);
      [|rewrite length_app; simpl; lia].
    apply within_incl with (path_graph (x :: l2)); [apply path_graph_incl|].
    now apply path_forward. }
  intros Ha Hb.
  destruct (in_split a p Ha) as (l1 & l2 & ->).
  apply in_app_iff in Hb. destruct Hb as [Hb|Hb]; [|now apply Hfwd].
  destruct (in_split b l1 Hb) as (m1 & m2 & ->).
  rewrite <- app_assoc, <- app_comm_cons.
  apply within_sym. apply Hfwd. right. apply in_app_iff. right. now left.
Qed.

Lemma path_graph_nodes p a b : In (a, b) (path_graph p) -> In a p /\ In b p.
Proof.
  unfold path_graph. intros H. split.
  - now apply in_combine_l in H.
  - apply in_combine_r in H. destruct p; [contradiction|now right].
Qed.

Lemma connected_ends {A : Type} (edges : list (A * A)) a b :
  connected edges a b ->
  a = b \/ (In a (nodes_of edges) /\ In b (nodes_of edges)).
Proof.
  intros H. destruct H as [a|a m b Hadj Hc]; [now left|right].
  assert (Ha : In a (nodes_of edges)) by now apply (adjacent_nodes edges a m).
  split; [assumption|].
  apply connected_node with a; [|assumption].
  now apply connected_step with m.
Qed.

(** Two connected nodes of a path graph of [k] edges are at most [k] edges
    apart. *)
Lemma path_diameter p : diameter_le (path_graph p) (length p - 1).
Proof.
  intros a b H. apply connected_ends in H as [->|[Ha Hb]]; [apply within_refl|].
  assert (Hn : forall n, In n (nodes_of (path_graph p)) -> In n p).
  { intros n Hn. apply in_nodes_of in Hn as [m [Hm|Hm]];
      apply path_graph_nodes in Hm; tauto. }
  apply path_between; auto.
Qed.

End Path.

Module ChainRuns.
Import Chain.

Lemma chain_path k : chain k = path_graph (map N.of_nat (seq 0 (S k))).
Proof.
  unfold chain, path_graph. generalize 0 as s.
  induction k as [|k IH]; intros s; [reflexivity|].
  cbn [seq map tl combine] in *. f_equal. apply IH.
Qed.

Lemma chain_run_unbounded k fuel :
  S k < fuel ->
  run_rounds fuel (chain (S k)) None
  = Returned (chain_labels (S k) (S k), Converged, Z.of_nat (S (S k))).
Proof.
  intros Hfuel. unfold run_rounds. rewrite chain_initial.
  rewrite (chain_unbounded k (S k) 0 1%Z fuel) by lia.
  repeat f_equal. lia.
Qed.

Lemma chain_run_bounded k m fuel :
  1 <= m <= S k -> m <= fuel ->
  run_rounds fuel (chain (S k)) (Some (Z.of_nat m))
  = Returned (chain_labels (S k) m, MaxIterReached, Z.of_nat m).
Proof.
  intros Hm Hfuel. unfold run_rounds. rewrite chain_initial.
  rewrite (chain_bounded k (Z.of_nat m) (m - 1) 0 1%Z fuel) by lia.
  replace (S (0 + (m - 1))) with m by lia. reflexivity.
Qed.

End ChainRuns.




(* ================================================================== *)
(** ** Identifiers and codes *)

Module Codes.
Import Rel RelFacts Graph.

Lemma value_eqb_eq a b : value_eqb a b = true <-> a = b.
Proof.
  destruct a as [x|x], b as [y|y]; simpl;
    try (split; [discriminate|intros H; inversion H]).
  - rewrite Z.eqb_eq. split; [congruence|now inversion 1].
  - rewrite String.eqb_eq. split; [congruence|now inversion 1].
Qed.

Lemma value_eqb_refl a : value_eqb a a = true.
Proof. now apply value_eqb_eq. Qed.

Lemma dtype_eqb_eq a b : dtype_eqb a b = true <-> a = b.
Proof. destruct a, b; simpl; split; congruence. Qed.

(** With unique keys on the right, a key selects at most one row. *)
Lemma filter_unique {B K : Type} (eqb : K -> K -> bool) (key : B -> K)
  (m : list B) (k : K) :
  (forall x y, eqb x y = true <-> x = y) ->
  NoDup (map key m) ->
  filter (fun b => eqb k (key b)) m =
  match find (fun b => eqb k (key b)) m with
  | Some b => [b]
  | None => []
  end.
Proof.
  intros Heqb. induction m as [|x m IH]; simpl; intros Hnd; [reflexivity|].
  inversion Hnd as [|? ? Hx Hnd']; subst.
  destruct (eqb k (key x)) eqn:E.
  - f_equal. apply Heqb in E. subst k.
    clear - Hx Heqb. induction m as [|y m IH]; simpl; [reflexivity|].
    destruct (eqb (key x) (key y)) eqn:E.
    + apply Heqb in E. exfalso. apply Hx. simpl. now left.
    + apply IH. intros H. apply Hx. now right.
  - now apply IH.
Qed.

Lemma combine_fst {A B : Type} (l : list A) : forall (l' : list B),
  length l = length l' -> map fst (combine l l') = l.
Proof.
  induction l as [|x l IH]; intros [|y l'] H; simpl in *; try discriminate;
    [reflexivity|]. f_equal. apply IH. lia.
Qed.

Lemma combine_snd {A B : Type} (l : list A) : forall (l' : list B),
  length l = length l' -> map snd (combine l l') = l'.
Proof.
  induction l as [|x l IH]; intros [|y l'] H; simpl in *; try discriminate;
    [reflexivity|]. f_equal. apply IH. lia.
Qed.

Lemma combine_fst_snd {A B : Type} (t : list (A * B)) :
  combine (map fst t) (map snd t) = t.
Proof.
  induction t as [|[a b] t IH]; simpl; [reflexivity|]. now rewrite IH.
Qed.

(** Numbering a duplicate-free list from 0 is a dense bijection. *)
Lemma numbering_dense ids l :
  NoDup l -> (forall v, In v l <-> In v ids) ->
  dense_bijection ids (combine l (map N.of_nat (seq 0 (length l)))).
Proof.
  intros Hnd Hin.
  assert (Hlen : length l = length (map N.of_nat (seq 0 (length l))))
    by now rewrite length_map, length_seq.
  unfold dense_bijection.
  rewrite (combine_fst _ _ Hlen), (combine_snd _ _ Hlen).
  split; [assumption|]. split; [assumption|]. split.
  - apply Injective_map_NoDup; [exact Nat2N.inj|apply seq_NoDup].
  - intros c. rewrite length_combine, <- Hlen, Nat.min_id, in_map_iff. split.
    + intros [i [<- Hi]]. apply in_seq in Hi. lia.
    + intros Hc. exists (N.to_nat c). split; [apply N2Nat.id|].
      apply in_seq. lia.
Qed.

Lemma occurrence_codes_conforming : conforming occurrence_codes.
Proof.
  intros ids. unfold occurrence_codes. apply numbering_dense.
  - apply NoDup_nodup.
  - intros v. apply nodup_In.
Qed.

Lemma reverse_codes_conforming : conforming reverse_codes.
Proof.
  intros ids. unfold reverse_codes. apply numbering_dense.
  - apply NoDup_rev, NoDup_nodup.
  - intros v. rewrite <- in_rev. apply nodup_In.
Qed.

Lemma snd_unique {A : Type} (t : list (A * N)) a b c :
  NoDup (map snd t) -> In (a, c) t -> In (b, c) t -> a = b.
Proof.
  induction t as [|[v d] t IH]; simpl; intros Hnd Ia Ib; [contradiction|].
  inversion Hnd as [|? ? Hc Hnd']; subst.
  destruct Ia as [Ia|Ia], Ib as [Ib|Ib].
  - congruence.
  - inversion Ia; subst. exfalso. apply Hc. apply in_map_iff. now exists (b, c).
  - inversion Ib; subst. exfalso. apply Hc. apply in_map_iff. now exists (a, c).
  - auto.
Qed.

Section Mapping.
Variable ids : list value.
Variable m : list (value * N).
Hypothesis Hm : dense_bijection ids m.

Lemma find_code v :
  In v ids -> find (fun c => value_eqb v (fst c)) m = Some (v, code_of m v).
Proof.
  intros Hv. destruct Hm as (_ & Hids & _).
  apply Hids in Hv. unfold code_of.
  destruct (find (fun c => value_eqb v (fst c)) m) as [[v' c]|] eqn:E.
  - apply find_some in E as [_ E]. simpl in E. apply value_eqb_eq in E.
    now subst.
  - exfalso. apply in_map_iff in Hv as [[v' c] [Ev Hin]]. simpl in Ev. subst v'.
    apply (find_none _ _ E) in Hin. simpl in Hin.
    rewrite value_eqb_refl in Hin. discriminate.
Qed.

Lemma code_in v : In v ids -> In (v, code_of m v) m.
Proof.
  intros Hv. pose proof (find_code v Hv) as E. now apply find_some in E.
Qed.

Lemma code_injective a b :
  In a ids -> In b ids -> code_of m a = code_of m b -> a = b.
Proof.
  intros Ha Hb E. destruct Hm as (_ & _ & Hnd & _).
  pose proof (code_in a Ha) as Ia. pose proof (code_in b Hb) as Ib.
  rewrite E in Ia. apply (snd_unique m a b _ Hnd Ia Ib).
Qed.

Lemma find_id v :
  In v ids ->
  find (fun c : value * N => (code_of m v =? snd c)%N) m = Some (v, code_of m v).
Proof.
  intros Hv. pose proof (code_in v Hv) as Hin.
  destruct (find (fun c : value * N => (code_of m v =? snd c)%N) m)
    as [[v' c]|] eqn:E.
  - apply find_some in E as [Hin' E]. simpl in E. apply N.eqb_eq in E. subst c.
    destruct Hm as (_ & _ & Hnd & _).
    now rewrite (snd_unique m v' v _ Hnd Hin' Hin).
  - exfalso. apply (find_none _ _ E) in Hin. simpl in Hin.
    rewrite N.eqb_refl in Hin. discriminate.
Qed.

(** Encoding the two columns of the edge rows sends each edge to the pair
    of the codes of its ends. *)
Lemma encode_rows rows :
  (forall e, In e rows -> In (fst e) ids /\ In (snd e) ids) ->
  encode_r m (encode_l m rows)
  = map (fun e => (code_of m (fst e), code_of m (snd e))) rows.
Proof.
  intros Hrows. destruct Hm as (Hnd & _).
  assert (El : encode_l m rows = map (fun e => (code_of m (fst e), snd e)) rows).
  { unfold encode_l, inner_join. clear - Hrows Hnd Hm.
    induction rows as [|e rows IH]; [reflexivity|].
    cbn [flat_map]. rewrite map_app, IH by (intros; apply Hrows; now right).
    rewrite (filter_unique value_eqb fst m (fst e) value_eqb_eq Hnd).
    rewrite find_code by (apply Hrows; now left). reflexivity. }
  rewrite El. unfold encode_r, inner_join. clear El.
  induction rows as [|e rows IH]; [reflexivity|].
  cbn [flat_map map]. rewrite map_app, IH by (intros; apply Hrows; now right).
  cbn [snd].
  rewrite (filter_unique value_eqb fst m (snd e) value_eqb_eq Hnd).
  rewrite find_code by (apply Hrows; now left). reflexivity.
Qed.

(** Decoding a labelling whose record ids are the codes of [vs] puts the
    identifiers of [vs] back in front of the labels. *)
Lemma decode_rows vs : forall L,
  (forall v, In v vs -> In v ids) ->
  map record_id L = map (code_of m) vs ->
  decode m L = combine vs (map component L).
Proof.
  destruct Hm as (_ & _ & Hnd & _).
  unfold decode, inner_join.
  induction vs as [|v vs IH]; intros [|[n c] L] Hvs E; try discriminate;
    [reflexivity|].
  cbn [flat_map map]. rewrite map_app.
  unfold record_id, component in *. simpl in E. inversion E as [[En EL]].
  rewrite IH; [|intros; apply Hvs; now right|assumption].
  cbn [fst snd].
  rewrite (filter_unique N.eqb snd m (code_of m v) N.eqb_eq Hnd).
  rewrite find_id by (apply Hvs; now left). reflexivity.
Qed.

End Mapping.

(** The graph of the encoded edges is the graph of the edges. *)
Section Isomorphism.
Variable raw : list (value * value).
Variable f : value -> N.
Hypothesis f_injective :
  forall a b, In a (nodes_of raw) -> In b (nodes_of raw) -> f a = f b -> a = b.

Let coded : Edges := coded_edges f raw.

Lemma coded_adjacent a b : adjacent raw a b -> adjacent coded (f a) (f b).
Proof.
  unfold adjacent, coded, coded_edges. intros [H|H]; [left|right];
    apply in_map_iff.
  - now exists (a, b).
  - now exists (b, a).
Qed.

Lemma coded_connected a b : connected raw a b -> connected coded (f a) (f b).
Proof.
  induction 1 as [|a m b Hadj _ IH]; [apply connected_refl|].
  apply connected_step with (f m); [now apply coded_adjacent|assumption].
Qed.

Lemma connected_coded x y :
  connected coded x y ->
  forall a, x = f a -> In a (nodes_of raw) ->
  exists b, y = f b /\ connected raw a b.
Proof.
  induction 1 as [x|x z y Hadj _ IH]; intros a Hx Ha.
  - exists a. split; [assumption|apply connected_refl].
  - assert (Hz : exists b, z = f b /\ adjacent raw a b).
    { unfold adjacent, coded, coded_edges in Hadj.
      destruct Hadj as [H|H]; apply in_map_iff in H as [[p q] [E H]];
        simpl in E; inversion E; subst; clear E.
      - assert (p = a).
        { apply f_injective; auto.
          apply (adjacent_nodes raw p q). now left. }
        subst p. exists q. split; [reflexivity|now left].
      - assert (q = a).
        { apply f_injective; auto.
          apply (adjacent_nodes raw p q). now left. }
        subst q. exists p. split; [reflexivity|now right]. }
    destruct Hz as (b & -> & Hab).
    destruct (IH b eq_refl) as (c & -> & Hbc);
      [now apply (adjacent_nodes raw a b)|].
    exists c. split; [reflexivity|]. now apply connected_step with b.
Qed.

Lemma connected_coded_iff a b :
  In a (nodes_of raw) -> In b (nodes_of raw) ->
  (connected coded (f a) (f b) <-> connected raw a b).
Proof.
  intros Ha Hb. split; [|apply coded_connected].
  intros H. destruct (connected_coded _ _ H a eq_refl Ha) as (c & E & Hc).
  assert (b = c).
  { apply f_injective; auto. now apply (connected_node raw a c). }
  now subst c.
Qed.

Lemma coded_nodes : nodes_of coded = map f (nodes_of raw).
Proof.
  unfold nodes_of, coded, coded_edges. rewrite map_app, !map_map. reflexivity.
Qed.

End Isomorphism.

(** [nodup] commutes with a map that is injective on the list. *)
Lemma nodup_map_injective (f : value -> N) (l : list value) :
  (forall a b, In a l -> In b l -> f a = f b -> a = b) ->
  nodup N.eq_dec (map f l) = map f (nodup value_eq_dec l).
Proof.
  induction l as [|x l IH]; intros Hinj; [reflexivity|]. simpl.
  assert (Hinj' : forall a b, In a l -> In b l -> f a = f b -> a = b)
    by (intros a b Ha Hb; apply Hinj; now right).
  destruct (in_dec N.eq_dec (f x) (map f l)) as [H|H];
    destruct (in_dec value_eq_dec x l) as [H'|H']; simpl;
    rewrite (IH Hinj'); try reflexivity.
  - exfalso. apply in_map_iff in H as [y [E Hy]].
    apply Hinj in E; [|now right|now left]. now subst y.
  - exfalso. apply H. now apply in_map.
Qed.

End Codes.

(* ================================================================== *)
(** ** [connected_components] on a well-formed edge table *)

Module Top.
Import Rel RelFacts Graph Round Rows Invariant LoopFacts Codes.

Lemma has_column_get name t :
  has_column name t = true <-> exists c, get_column name t = Some c.
Proof.
  unfold has_column, get_column, columns. induction t as [|[n c] t IH]; simpl.
  - split; [discriminate|intros [c H]; discriminate].
  - destruct (String.eqb name n); simpl; [split; eauto|exact IH].
Qed.

Lemma edge_rows_nodes l r v :
  In v (nodes_of (edge_rows l r)) -> In v (cells l ++ cells r).
Proof.
  unfold nodes_of, edge_rows. rewrite !in_app_iff, !in_map_iff.
  intros [[[a b] [E H]]|[[a b] [E H]]]; simpl in E; subst.
  - left. now apply in_combine_l in H.
  - right. now apply in_combine_r in H.
Qed.

Lemma combine_coded (f : value -> N) vs : forall (L : Labels) a c,
  map record_id L = map f vs ->
  In (a, c) (combine vs (map component L)) ->
  In (f a, c) L /\ In a vs.
Proof.
  induction vs as [|v vs IH]; intros [|[n d] L] a c E H; simpl in *;
    try contradiction.
  unfold record_id, component in *. simpl in *. inversion E as [[En EL]].
  destruct H as [H|H].
  - inversion H; subst. auto.
  - destruct (IH L a c EL H). auto.
Qed.

Section Valid.
Variable F : Factorizer.
Hypothesis F_ok : conforming F.
Variable edges : Table.
Variables l r : column.
Hypothesis Hl : get_column "record_id_l" edges = Some l.
Hypothesis Hr : get_column "record_id_r" edges = Some r.
Hypothesis Htype : dtype_of l = dtype_of r.

Let ids : list value := cells l ++ cells r.
Let m : list (value * N) := F ids.
Let raw : list (value * value) := edge_rows l r.
Let E : Edges := coded_edges (code_of m) raw.
Let vs : list value := nodup value_eq_dec (nodes_of raw).

Lemma intify_valid :
  _intify_edges F edges
  = Returned (E, fun int_labels =>
                   {| record_id_type := dtype_of l;
                      label_rows := decode m int_labels |}).
Proof.
  unfold _intify_edges.
  assert (H1 : has_column "record_id_l" edges = true)
    by (apply has_column_get; eauto).
  assert (H2 : has_column "record_id_r" edges = true)
    by (apply has_column_get; eauto).
  rewrite H1, H2, Hl, Hr. cbn [negb orb].
  assert (H3 : dtype_eqb (dtype_of l) (dtype_of r) = true)
    by now apply dtype_eqb_eq.
  rewrite H3. cbn [negb].
  assert (Henc : encode_r m (encode_l m (combine (cells l) (cells r))) = E).
  { apply (encode_rows ids m (F_ok ids)).
    intros [a b] He. simpl. split; apply edge_rows_nodes; unfold nodes_of;
      apply in_app_iff; [left|right]; apply in_map_iff; now exists (a, b). }
  unfold m, ids in Henc. rewrite Henc. reflexivity.
Qed.

Lemma int_edges_valid : int_edges_of F edges = E.
Proof. unfold int_edges_of. now rewrite intify_valid. Qed.

Lemma code_injective_on_nodes a b :
  In a (nodes_of raw) -> In b (nodes_of raw) ->
  code_of m a = code_of m b -> a = b.
Proof.
  intros Ha Hb. apply (code_injective ids m (F_ok ids));
    now apply edge_rows_nodes.
Qed.

Lemma int_nodes : distinct_nodes E = map (code_of m) vs.
Proof.
  unfold distinct_nodes, E, vs. rewrite coded_nodes.
  apply nodup_map_injective. exact code_injective_on_nodes.
Qed.

Lemma vs_ids v : In v vs -> In v ids.
Proof. unfold vs. rewrite nodup_In. apply edge_rows_nodes. Qed.

(** The table returned for the labelling [L] of the integer core. *)
Lemma decoded_run fuel max_iter L st j :
  run_rounds fuel E max_iter = Returned (L, st, j) ->
  map record_id L = map (code_of m) vs /\
  connected_components F fuel edges None max_iter
  = Returned {| record_id_type := dtype_of l;
                label_rows := combine vs (map component L) |}.
Proof.
  intros H.
  assert (Hids : map record_id L = map (code_of m) vs).
  { rewrite <- int_nodes, <- initial_ids.
    apply ok_ids. apply round_input_ok. eapply Core.run_round_input; eauto. }
  split; [assumption|].
  unfold connected_components. rewrite intify_valid. cbn [bind fst snd].
  unfold _connected_components_ints. rewrite H. cbn [bind fst].
  f_equal. f_equal.
  apply (decode_rows ids m (F_ok ids) vs L vs_ids Hids).
Qed.

Lemma decoded_row fuel max_iter L st j a c :
  run_rounds fuel E max_iter = Returned (L, st, j) ->
  In (a, c) (combine vs (map component L)) ->
  In (code_of m a, c) L /\ In a (nodes_of raw).
Proof.
  intros H Hin. destruct (decoded_run _ _ _ _ _ H) as [Hids _].
  destruct (combine_coded (code_of m) vs L a c Hids Hin) as [H1 H2].
  split; [assumption|]. unfold vs in H2. now apply nodup_In in H2.
Qed.

(** Without a round limit two rows of the table returned carry the same
    label exactly when a path of edges joins their nodes. *)
Lemma decoded_same_label fuel L j a b ca cb :
  run_rounds fuel E None = Returned (L, Converged, j) ->
  In (a, ca) (combine vs (map component L)) ->
  In (b, cb) (combine vs (map component L)) ->
  (ca = cb <-> connected raw a b).
Proof.
  intros H Ha Hb.
  destruct (decoded_row _ _ _ _ _ _ _ H Ha) as [Ia Na].
  destruct (decoded_row _ _ _ _ _ _ _ H Hb) as [Ib Nb].
  destruct (Core.run_converged_fixpoint _ _ _ _ _ H) as [Hok Hfix].
  rewrite (Core.fixpoint_same_label E L _ _ ca cb Hok Hfix Ia Ib).
  apply (connected_coded_iff raw (code_of m) code_injective_on_nodes a b Na Nb).
Qed.

End Valid.

End Top.



(** C6: an edge table that lacks [record_id_l] or [record_id_r], or whose
    two endpoint columns differ in type, makes [connected_components] raise
    in [_intify_edges], whatever the other arguments and for any fuel, none
    included: no round of the loop is run. *)
Theorem malformed_edges_rejected (F : Factorizer) (fuel : nat) (edges : Table)
  (nodes : option nodes_arg) (max_iter : option Z) :
  (has_column "record_id_l" edges = false \/
   has_column "record_id_r" edges = false ->
   _intify_edges F edges = Raised ValueError /\
   connected_components F fuel edges nodes max_iter = Raised ValueError /\
   connected_components F 0 edges nodes max_iter = Raised ValueError) /\
  (forall l r,
      get_column "record_id_l" edges = Some l ->
      get_column "record_id_r" edges = Some r ->
      dtype_of l <> dtype_of r ->
      _intify_edges F edges = Raised IbisError /\
      connected_components F fuel edges nodes max_iter = Raised IbisError /\
      connected_components F 0 edges nodes max_iter = Raised IbisError).
Proof.
  split.
  - intros H.
    assert (E : _intify_edges F edges = Raised ValueError).
    { unfold _intify_edges. destruct H as [H|H]; rewrite H; simpl;
        [reflexivity|now rewrite orb_true_r]. }
    unfold connected_components. rewrite E. simpl. auto.
  - intros l r Hl Hr Hne.
    assert (E : _intify_edges F edges = Raised IbisError).
    { unfold _intify_edges.
      assert (H1 : has_column "record_id_l" edges = true)
        by (apply Top.has_column_get; eauto).
      assert (H2 : has_column "record_id_r" edges = true)
        by (apply Top.has_column_get; eauto).
      rewrite H1, H2, Hl, Hr. simpl.
      destruct (dtype_eqb (dtype_of l) (dtype_of r)) eqn:Eq; [|reflexivity].
      apply Codes.dtype_eqb_eq in Eq. contradiction. }
    unfold connected_components. rewrite E. simpl. auto.
Qed.

(** The theorem at a table without [record_id_r] and at a table of mixed
    endpoint types. *)
Lemma malformed_edges_rejected_witness :
  connected_components occurrence_codes 0 one_column_table None None
  = Raised ValueError /\
  connected_components occurrence_codes 7 mixed_type_table None (Some 3%Z)
  = Raised IbisError.
Proof.
  split.
  - destruct (malformed_edges_rejected occurrence_codes 0 one_column_table
                None None) as [H _].
    apply H. right. reflexivity.
  - destruct (malformed_edges_rejected occurrence_codes 7 mixed_type_table
                None (Some 3%Z)) as [_ H].
    apply (H (StringColumn ["a"; "b"]%string) (IntColumn [1; 2]%Z));
      [reflexivity|reflexivity|discriminate].
Defined.

(* ================================================================== *)
(** ** Labels for the missing nodes *)

Module Augment.
Import Rel RelFacts Codes.

Lemma fold_max_ge xs : forall x, (x <= fold_left N.max xs x)%N.
Proof.
  induction xs as [|y xs IH]; simpl; intros x; [lia|].
  specialize (IH (N.max x y)). lia.
Qed.

Lemma fold_max_upper xs : forall x w, In w xs -> (w <= fold_left N.max xs x)%N.
Proof.
  induction xs as [|y xs IH]; simpl; intros x w Hw; [contradiction|].
  destruct Hw as [<-|Hw].
  - pose proof (fold_max_ge xs (N.max x y)). lia.
  - now apply IH.
Qed.

Lemma fold_max_in xs : forall x,
  fold_left N.max xs x = x \/ In (fold_left N.max xs x) xs.
Proof.
  induction xs as [|y xs IH]; simpl; intros x; [now left|].
  destruct (IH (N.max x y)) as [H|H]; [|now right; right].
  rewrite H. destruct (N.max_spec x y) as [[_ E]|[_ E]]; rewrite E; auto.
Qed.

Lemma agg_max_spec xs v :
  agg_max xs = Some v -> In v xs /\ forall w, In w xs -> (w <= v)%N.
Proof.
  destruct xs as [|x xs]; simpl; [discriminate|].
  intros H. inversion H; subst; clear H. split.
  - destruct (fold_max_in xs x) as [E|E]; [left; now rewrite E|now right].
  - intros w [<-|Hw]; [apply fold_max_ge|now apply fold_max_upper].
Qed.

Lemma agg_max_defined xs : xs <> [] -> exists v, agg_max xs = Some v.
Proof. destruct xs; [congruence|simpl; eauto]. Qed.

Lemma map_snd_combine {A : Type} (g : N -> N) (l : list A) : forall l2,
  map (fun r => (fst r, g (snd r))) (combine l l2) = combine l (map g l2).
Proof.
  induction l as [|x l IH]; intros [|y l2]; simpl; try reflexivity.
  now rewrite IH.
Qed.

(** The rows that [_get_additional_labels] builds are [fresh_labels]. *)
Lemma additional_rows mx (missing : list value) :
  map (fun r => (fst r, (snd r + (1 + mx))%N)) (row_number missing)
  = fresh_labels mx missing.
Proof.
  unfold row_number, fresh_labels.
  rewrite (map_snd_combine (fun n => (n + (1 + mx))%N)), map_map.
  f_equal. apply map_ext. intros i. lia.
Qed.

Lemma fresh_labels_fst mx missing : map fst (fresh_labels mx missing) = missing.
Proof.
  unfold fresh_labels. apply combine_fst. now rewrite length_map, length_seq.
Qed.

Lemma fresh_labels_snd mx missing :
  map snd (fresh_labels mx missing)
  = map (fun i => (mx + 1 + N.of_nat i)%N) (seq 0 (length missing)).
Proof.
  unfold fresh_labels. apply combine_snd. now rewrite length_map, length_seq.
Qed.

Lemma fresh_labels_nth mx missing i c :
  nth_error (map snd (fresh_labels mx missing)) i = Some c ->
  i < length missing /\ c = (mx + 1 + N.of_nat i)%N.
Proof.
  rewrite fresh_labels_snd, nth_error_map, nth_error_seq.
  destruct (Nat.ltb i (length missing)) eqn:E; [|discriminate].
  apply Nat.ltb_lt in E. simpl. intros H. inversion H. auto.
Qed.

Lemma fresh_labels_row mx missing i w :
  nth_error missing i = Some w ->
  nth_error (fresh_labels mx missing) i = Some (w, (mx + 1 + N.of_nat i)%N).
Proof.
  intros Hw.
  assert (Hi : i < length missing) by (apply nth_error_Some; congruence).
  assert (H1 : nth_error (map fst (fresh_labels mx missing)) i = Some w)
    by now rewrite fresh_labels_fst.
  assert (H2 : nth_error (map snd (fresh_labels mx missing)) i
               = Some (mx + 1 + N.of_nat i)%N).
  { rewrite fresh_labels_snd, nth_error_map, nth_error_seq.
    apply Nat.ltb_lt in Hi. now rewrite Hi. }
  rewrite nth_error_map in H1, H2.
  destruct (nth_error (fresh_labels mx missing) i) as [[w' c']|];
    [|discriminate].
  simpl in H1, H2. congruence.
Qed.

Lemma fresh_labels_above mx missing w c :
  In (w, c) (fresh_labels mx missing) -> (mx < c)%N.
Proof.
  intros H. apply (in_map snd) in H. rewrite fresh_labels_snd in H.
  apply in_map_iff in H as [i [E _]]. simpl in E. lia.
Qed.

Lemma fresh_labels_NoDup mx missing : NoDup (map snd (fresh_labels mx missing)).
Proof.
  rewrite fresh_labels_snd.
  apply Injective_map_NoDup; [intros i j E; lia|apply seq_NoDup].
Qed.

Lemma in_missing_nodes labels ids w :
  In w (missing_nodes labels ids) <->
  In w (cells ids) /\ ~ In w (map fst (label_rows labels)).
Proof.
  unfold missing_nodes. rewrite filter_In, negb_true_iff. 
  assert (H : existsb (value_eqb w) (map fst (label_rows labels)) = true
              <-> In w (map fst (label_rows labels))).
  { rewrite existsb_exists. split.
    - intros [x [Hx E]]. apply value_eqb_eq in E. now subst.
    - intros Hw. exists w. split; [assumption|apply value_eqb_refl]. }
  split; intros [H1 H2]; (split; [assumption|]).
  - intros Hw. apply H in Hw. congruence.
  - destruct (existsb _ _); [|reflexivity].
    exfalso. apply H2. now apply H.
Qed.

(** What the two functions return on a universe of the type of the labels
    when some label is in use. *)
Lemma additional_labels_returned labels nodes ids mx :
  get_column "record_id" (as_table nodes) = Some ids ->
  dtype_of ids = record_id_type labels ->
  agg_max (map snd (label_rows labels)) = Some mx ->
  _get_additional_labels labels nodes
  = Returned {| record_id_type := dtype_of ids;
                label_rows := fresh_labels mx (missing_nodes labels ids) |} /\
  _add_labels_for_missing_nodes labels nodes
  = Returned {| record_id_type := record_id_type labels;
                label_rows := label_rows labels
                              ++ fresh_labels mx (missing_nodes labels ids) |}.
Proof.
  intros Hids Htype Hmx.
  assert (E : _get_additional_labels labels nodes
              = Returned {| record_id_type := dtype_of ids;
                            label_rows :=
                              fresh_labels mx (missing_nodes labels ids) |}).
  { unfold _get_additional_labels. rewrite Hids.
    assert (Hd : dtype_eqb (dtype_of ids) (record_id_type labels) = true)
      by now apply dtype_eqb_eq.
    rewrite Hd, Hmx. cbn [negb]. rewrite additional_rows. reflexivity. }
  split; [assumption|].
  unfold _add_labels_for_missing_nodes. rewrite E. cbn [bind record_id_type].
  assert (Hd : dtype_eqb (record_id_type labels) (dtype_of ids) = true)
    by now apply dtype_eqb_eq.
  rewrite Hd. reflexivity.
Qed.

End Augment.



(* ================================================================== *)
(** ** Two runs on the same input *)

Module Runs.
Import Rel RelFacts Graph Round Rows Invariant LoopFacts Codes Top Augment.

Lemma same_partition_refl t : same_partition t t.
Proof.
  split; [reflexivity|]. intros i j c1 d1 c2 d2 H1 H2 H3 H4.
  rewrite H1 in H3. rewrite H2 in H4. inversion H3; inversion H4; subst.
  tauto.
Qed.

Lemma nth_error_combine {A B : Type} (l : list A) : forall (l' : list B) i a b,
  nth_error l i = Some a -> nth_error l' i = Some b ->
  nth_error (combine l l') i = Some (a, b).
Proof.
  induction l as [|x l IH]; intros [|y l'] [|i] a b Ha Hb; simpl in *;
    try discriminate.
  - congruence.
  - now apply IH.
Qed.

(** Appending fresh labels to two tables with the same partition gives two
    tables with the same partition. *)
Lemma same_partition_app r1 r2 mx1 mx2 missing :
  same_partition r1 r2 ->
  (forall c, In c (map snd r1) -> (c <= mx1)%N) ->
  (forall c, In c (map snd r2) -> (c <= mx2)%N) ->
  same_partition (r1 ++ fresh_labels mx1 missing)
                 (r2 ++ fresh_labels mx2 missing).
Proof.
  intros [Hfst Hpos] Hup1 Hup2.
  assert (Hlen : length (map snd r1) = length (map snd r2)).
  { rewrite !length_map, <- (length_map fst r1), <- (length_map fst r2).
    now rewrite Hfst. }
  split.
  - rewrite !map_app, !fresh_labels_fst. now rewrite Hfst.
  - intros i j c1 d1 c2 d2. rewrite !map_app.
    assert (Hold : forall (r : list (value * N)) mx k c,
               (forall c, In c (map snd r) -> (c <= mx)%N) ->
               k < length (map snd r) ->
               nth_error (map snd r ++ map snd (fresh_labels mx missing)) k
               = Some c ->
               nth_error (map snd r) k = Some c /\ (c <= mx)%N).
    { intros r mx k c Hup Hk H. rewrite nth_error_app1 in H by assumption.
      split; [assumption|]. apply Hup. eapply nth_error_In; eauto. }
    assert (Hnew : forall (r : list (value * N)) mx k c,
               length (map snd r) <= k ->
               nth_error (map snd r ++ map snd (fresh_labels mx missing)) k
               = Some c ->
               c = (mx + 1 + N.of_nat (k - length (map snd r)))%N).
    { intros r mx k c Hk H. rewrite nth_error_app2 in H by assumption.
      now apply fresh_labels_nth in H. }
    intros H1 H2 H3 H4.
    destruct (le_lt_dec (length (map snd r1)) i) as [Hi|Hi];
      destruct (le_lt_dec (length (map snd r1)) j) as [Hj|Hj].
    + apply Hnew in H1, H2; [|assumption..].
      apply Hnew in H3, H4; [|lia..]. rewrite <- Hlen in H3, H4.
      subst. lia.
    + apply Hnew in H1; [|assumption]. apply Hnew in H3; [|lia].
      apply Hold in H2 as [_ H2]; [|assumption..].
      apply Hold in H4 as [_ H4]; [|assumption|lia].
      subst. lia.
    + apply Hnew in H2; [|assumption]. apply Hnew in H4; [|lia].
      apply Hold in H1 as [_ H1]; [|assumption..].
      apply Hold in H3 as [_ H3]; [|assumption|lia].
      subst. lia.
    + apply Hold in H1 as [H1 _]; [|assumption..].
      apply Hold in H2 as [H2 _]; [|assumption..].
      apply Hold in H3 as [H3 _]; [|assumption|lia].
      apply Hold in H4 as [H4 _]; [|assumption|lia].
      now apply (Hpos i j).
Qed.

Lemma agg_max_none xs : agg_max xs = None -> xs = [].
Proof. destruct xs; [reflexivity|discriminate]. Qed.

(** Adding the labels of the missing nodes keeps two runs in agreement. *)
Lemma augment_agree t1 t2 nodes :
  record_id_type t1 = record_id_type t2 ->
  same_partition (label_rows t1) (label_rows t2) ->
  runs_agree (_add_labels_for_missing_nodes t1 nodes)
             (_add_labels_for_missing_nodes t2 nodes).
Proof.
  intros Htype Hpart. pose proof Hpart as [Hfst _].
  destruct (get_column "record_id" (as_table nodes)) as [ids|] eqn:Hids.
  2:{ unfold _add_labels_for_missing_nodes, _get_additional_labels.
      rewrite Hids. simpl. reflexivity. }
  destruct (dtype_eqb (dtype_of ids) (record_id_type t1)) eqn:Hd.
  2:{ unfold _add_labels_for_missing_nodes, _get_additional_labels.
      rewrite Hids, <- Htype, Hd. simpl. reflexivity. }
  apply dtype_eqb_eq in Hd.
  destruct (agg_max (map snd (label_rows t1))) as [mx1|] eqn:Hm1.
  2:{ assert (Hm2 : agg_max (map snd (label_rows t2)) = None).
      { apply agg_max_none in Hm1. apply map_eq_nil in Hm1.
        rewrite Hm1 in Hfst. symmetry in Hfst. apply map_eq_nil in Hfst.
        now rewrite Hfst. }
      unfold _add_labels_for_missing_nodes, _get_additional_labels.
      rewrite Hids, <- Htype.
      apply dtype_eqb_eq in Hd. rewrite Hd, Hm1, Hm2. simpl. reflexivity. }
  destruct (agg_max (map snd (label_rows t2))) as [mx2|] eqn:Hm2.
  2:{ exfalso. apply agg_max_none in Hm2. apply map_eq_nil in Hm2.
      rewrite Hm2 in Hfst. apply map_eq_nil in Hfst.
      rewrite Hfst in Hm1. discriminate. }
  destruct (additional_labels_returned t1 nodes ids mx1 Hids Hd Hm1) as [_ E1].
  destruct (additional_labels_returned t2 nodes ids mx2 Hids
              (eq_trans Hd Htype) Hm2) as [_ E2].
  rewrite E1, E2. simpl. split; [assumption|].
  assert (Hmiss : missing_nodes t2 ids = missing_nodes t1 ids)
    by (unfold missing_nodes; now rewrite Hfst).
  rewrite Hmiss.
  apply same_partition_app; [assumption| |].
  - now apply (agg_max_spec _ _ Hm1).
  - now apply (agg_max_spec _ _ Hm2).
Qed.

(** The [nodes] argument is only looked at after the run without it. *)
Lemma connected_components_nodes F fuel edges nodes max_iter :
  connected_components F fuel edges (Some nodes) max_iter
  = (result <- connected_components F fuel edges None max_iter ;;
     _add_labels_for_missing_nodes result nodes).
Proof.
  unfold connected_components.
  destruct (_intify_edges F edges) as [ie| | |]; try reflexivity. cbn [bind].
  destruct (_connected_components_ints fuel (fst ie) max_iter); reflexivity.
Qed.

Lemma intify_missing_column F edges :
  has_column "record_id_l" edges = false \/
  has_column "record_id_r" edges = false ->
  _intify_edges F edges = Raised ValueError.
Proof.
  unfold _intify_edges.
  intros [H|H]; rewrite H; simpl; [reflexivity|now rewrite orb_true_r].
Qed.

Lemma intify_mixed_types F edges l r :
  get_column "record_id_l" edges = Some l ->
  get_column "record_id_r" edges = Some r ->
  dtype_of l <> dtype_of r ->
  _intify_edges F edges = Raised IbisError.
Proof.
  intros Hl Hr Hne. unfold _intify_edges.
  assert (H1 : has_column "record_id_l" edges = true)
    by (apply has_column_get; eauto).
  assert (H2 : has_column "record_id_r" edges = true)
    by (apply has_column_get; eauto).
  rewrite H1, H2, Hl, Hr. simpl.
  destruct (dtype_eqb (dtype_of l) (dtype_of r)) eqn:Eq; [|reflexivity].
  apply dtype_eqb_eq in Eq. contradiction.
Qed.

(** The shapes an edge table can have. *)
Lemma table_cases edges :
  (has_column "record_id_l" edges = false \/
   has_column "record_id_r" edges = false) \/
  exists l r,
    get_column "record_id_l" edges = Some l /\
    get_column "record_id_r" edges = Some r /\
    (dtype_of l = dtype_of r \/ dtype_of l <> dtype_of r).
Proof.
  destruct (has_column "record_id_l" edges) eqn:H1; [|now left; left].
  destruct (has_column "record_id_r" edges) eqn:H2; [|now left; right].
  right. apply has_column_get in H1 as [l Hl]. apply has_column_get in H2 as [r Hr].
  exists l, r. split; [assumption|]. split; [assumption|].
  destruct (dtype_of l), (dtype_of r); auto; right; discriminate.
Qed.

Section TwoRuns.
Variables F1 F2 : Factorizer.
Hypothesis F1_ok : conforming F1.
Hypothesis F2_ok : conforming F2.
Variable edges : Table.
Variables l r : column.
Hypothesis Hl : get_column "record_id_l" edges = Some l.
Hypothesis Hr : get_column "record_id_r" edges = Some r.
Hypothesis Htype : dtype_of l = dtype_of r.
Variables fuel1 fuel2 : nat.
Hypothesis Hfuel1 : enough_fuel (int_edges_of F1 edges) <= fuel1.
Hypothesis Hfuel2 : enough_fuel (int_edges_of F2 edges) <= fuel2.

(** Two codings, no round limit. *)
Lemma unbounded_runs_agree :
  runs_agree (connected_components F1 fuel1 edges None None)
             (connected_components F2 fuel2 edges None None).
Proof.
  destruct (Core.run_same_label _ fuel1 Hfuel1) as (L1 & j1 & R1 & _).
  destruct (Core.run_same_label _ fuel2 Hfuel2) as (L2 & j2 & R2 & _).
  rewrite (int_edges_valid F1 F1_ok edges l r Hl Hr Htype) in R1.
  rewrite (int_edges_valid F2 F2_ok edges l r Hl Hr Htype) in R2.
  destruct (decoded_run F1 F1_ok edges l r Hl Hr Htype _ _ _ _ _ R1) as [I1 O1].
  destruct (decoded_run F2 F2_ok edges l r Hl Hr Htype _ _ _ _ _ R2) as [I2 O2].
  rewrite O1, O2. simpl. split; [reflexivity|].
  set (vs := nodup value_eq_dec (nodes_of (edge_rows l r))) in *.
  assert (Hlen1 : length vs = length (map component L1)).
  { rewrite length_map, <- (length_map record_id L1), I1. now rewrite length_map. }
  assert (Hlen2 : length vs = length (map component L2)).
  { rewrite length_map, <- (length_map record_id L2), I2. now rewrite length_map. }
  split.
  - now rewrite (combine_fst _ _ Hlen1), (combine_fst _ _ Hlen2).
  - intros i j c1 d1 c2 d2.
    rewrite (combine_snd _ _ Hlen1), (combine_snd _ _ Hlen2).
    intros H1 H2 H3 H4.
    assert (Hi : exists a, nth_error vs i = Some a).
    { destruct (nth_error vs i) as [a|] eqn:E; [eauto|].
      apply nth_error_None in E.
      assert (nth_error (map component L1) i <> None) by congruence.
      apply nth_error_Some in H. lia. }
    assert (Hj : exists b, nth_error vs j = Some b).
    { destruct (nth_error vs j) as [b|] eqn:E; [eauto|].
      apply nth_error_None in E.
      assert (nth_error (map component L1) j <> None) by congruence.
      apply nth_error_Some in H. lia. }
    destruct Hi as [a Ha]. destruct Hj as [b Hb].
    pose proof (nth_error_In _ _ (nth_error_combine _ _ _ _ _ Ha H1)) as A1.
    pose proof (nth_error_In _ _ (nth_error_combine _ _ _ _ _ Hb H2)) as B1.
    pose proof (nth_error_In _ _ (nth_error_combine _ _ _ _ _ Ha H3)) as A2.
    pose proof (nth_error_In _ _ (nth_error_combine _ _ _ _ _ Hb H4)) as B2.
    rewrite (decoded_same_label F1 F1_ok edges l r Hl Hr Htype
               fuel1 L1 j1 a b c1 d1 R1 A1 B1).
    rewrite (decoded_same_label F2 F2_ok edges l r Hl Hr Htype
               fuel2 L2 j2 a b c2 d2 R2 A2 B2).
    tauto.
Qed.

(** One coding, any round limit: the fuel does not matter. *)
Lemma same_codes_runs_agree max_iter :
  (forall ids, F1 ids = F2 ids) ->
  runs_agree (connected_components F1 fuel1 edges None max_iter)
             (connected_components F2 fuel2 edges None max_iter).
Proof.
  intros Hsame.
  assert (HE : int_edges_of F2 edges = int_edges_of F1 edges).
  { rewrite (int_edges_valid F1 F1_ok edges l r Hl Hr Htype).
    rewrite (int_edges_valid F2 F2_ok edges l r Hl Hr Htype).
    now rewrite Hsame. }
  destruct (Core.run_returns _ max_iter fuel1 Hfuel1) as (L1 & s1 & j1 & R1 & _).
  destruct (Core.run_returns _ max_iter fuel2 Hfuel2) as (L2 & s2 & j2 & R2 & _).
  rewrite HE in R2.
  assert (EL : L2 = L1).
  { unfold run_rounds in R1, R2.
    pose proof (propagate_more_fuel _ _ _ _ (Nat.max fuel1 fuel2) _ _ _ R1
                  (Nat.le_max_l _ _)) as M1.
    pose proof (propagate_more_fuel _ _ _ _ (Nat.max fuel1 fuel2) _ _ _ R2
                  (Nat.le_max_r _ _)) as M2.
    congruence. }
  subst L2.
  rewrite (int_edges_valid F1 F1_ok edges l r Hl Hr Htype) in R1, R2.
  destruct (decoded_run F1 F1_ok edges l r Hl Hr Htype _ _ _ _ _ R1) as [_ O1].
  assert (R2' : run_rounds fuel2
                  (coded_edges (code_of (F2 (cells l ++ cells r))) (edge_rows l r))
                  max_iter = Returned (L1, s2, j2))
    by now rewrite <- Hsame.
  destruct (decoded_run F2 F2_ok edges l r Hl Hr Htype _ _ _ _ _ R2') as [_ O2].
  rewrite O1, O2. simpl. split; [reflexivity|]. apply same_partition_refl.
Qed.

End TwoRuns.

End Runs.



(** The label numbers of the two codings differ all the same. *)
Example label_numbers_depend_on_codes :
  connected_components occurrence_codes 40 docstring_table
    (Some universe_wav) None
  <> connected_components reverse_codes 50 docstring_table
       (Some universe_wav) None.
Proof. vm_compute. discriminate. Qed.

(* ================================================================== *)
(** ** More about the tables of one round *)

Module RoundFacts.
Import Rel RelFacts Graph Round Rows Invariant LoopFacts.

Lemma group_by_min_key t k :
  In k (map fst t) -> In k (map fst (group_by_min t)).
Proof.
  intros Hk. apply in_map_iff in Hk as [[k' w] [E Hin]]. simpl in E. subst k'.
  destruct (agg_min (map snd (filter (fun r => (fst r =? k)%N) t)))
    as [v|] eqn:Em.
  - apply in_map_iff. exists (k, v). split; [reflexivity|].
    unfold group_by_min. apply in_flat_map. exists k. split.
    + apply nodup_In. apply in_map_iff. now exists (k, w).
    + rewrite Em. now left.
  - exfalso.
    assert (Hn : In w (map snd (filter (fun r => (fst r =? k)%N) t))).
    { apply in_map_iff. exists (k, w). split; [reflexivity|].
      apply filter_In. split; [assumption|simpl; apply N.eqb_refl]. }
    destruct (map snd _); [contradiction|discriminate].
Qed.

Lemma in_together eqs old w :
  In (old, w)
     (union_distinct (map (fun p => (fst p, N.min (fst p) (snd p))) eqs)
                     (map (fun p => (snd p, N.min (fst p) (snd p))) eqs)) <->
  exists l r, In (l, r) eqs /\ (old = l \/ old = r) /\ w = N.min l r.
Proof.
  rewrite in_union_distinct, !in_map_iff. split.
  - intros [[[l r] [E H]]|[[l r] [E H]]]; simpl in E; injection E as E1 E2;
      exists l, r; rewrite <- E1, <- E2; auto.
  - intros (l & r & H & [Ho|Ho] & Hw); rewrite Ho, Hw;
      [left|right]; now exists (l, r).
Qed.

(** The new label of [c] does not depend on how the edges are stored. *)
Lemma candidate_same_adjacency edges edges' L c w :
  same_adjacency edges edges' ->
  candidate edges L c w -> candidate edges' L c w.
Proof.
  intros Hadj (a & b & cl & cr & Hab & Ha & Hb & Hc & Hw).
  assert (H : adjacent edges' a b) by (apply Hadj; now left).
  destruct H as [H|H].
  - exists a, b, cl, cr. auto 10.
  - exists b, a, cr, cl. repeat split; auto; [tauto|lia].
Qed.

Lemma new_label_same_adjacency edges edges' L c :
  same_adjacency edges edges' ->
  new_label edges L c = new_label edges' L c.
Proof.
  intros Hadj.
  assert (Hadj' : same_adjacency edges' edges)
    by (intros a b; symmetry; apply Hadj).
  assert (Hmove : forall e e' v, same_adjacency e e' ->
             new_label e L c = Some v -> new_label e' L c = Some v).
  { intros e e' v He H. apply new_label_spec in H as [H1 H2].
    apply new_label_spec. split.
    - now apply (candidate_same_adjacency e e').
    - intros w Hw. apply H2. apply (candidate_same_adjacency e' e); [|assumption].
      intros a b. symmetry. apply He. }
  destruct (new_label edges L c) as [v|] eqn:E.
  - symmetry. now apply (Hmove edges edges').
  - destruct (new_label edges' L c) as [v'|] eqn:E'; [|reflexivity].
    apply (Hmove edges' edges) in E'; [congruence|assumption].
Qed.

Lemma same_adjacency_swapped edges : same_adjacency edges (swapped edges).
Proof.
  assert (H : forall a b, In (a, b) (swapped edges) <-> In (b, a) edges).
  { intros a b. unfold swapped. rewrite in_map_iff. split.
    - intros [[x y] [E Hin]]. simpl in E. now inversion E; subst.
    - intros Hin. now exists (b, a). }
  intros a b. unfold adjacent. rewrite !H. tauto.
Qed.

Lemma same_adjacency_app edges : same_adjacency edges (edges ++ swapped edges).
Proof.
  intros a b. unfold adjacent. rewrite !in_app_iff.
  pose proof (same_adjacency_swapped edges a b) as H. unfold adjacent in H.
  pose proof (same_adjacency_swapped edges b a) as H'. unfold adjacent in H'.
  tauto.
Qed.

Lemma connected_same_adjacency edges edges' a b :
  same_adjacency edges edges' -> connected edges a b -> connected edges' a b.
Proof.
  intros Hadj. induction 1 as [|a m b H _ IH]; [apply connected_refl|].
  apply connected_step with m; [now apply Hadj|assumption].
Qed.

End RoundFacts.

(** X1: the initial labelling has exactly one row for every distinct
    endpoint of the edge table, and the row labels the node with its own
    code. *)
Theorem initial_labels_one_row_per_node (edges : Edges) :
  NoDup (map record_id (_get_initial_labels edges)) /\
  (forall n c,
      In (n, c) (_get_initial_labels edges) <->
      c = n /\ In n (nodes_of edges)) /\
  length (_get_initial_labels edges) = length (distinct_nodes edges).
Proof.
  split; [|split].
  - rewrite Rows.initial_ids. apply NoDup_nodup.
  - intros n c. rewrite Rows.initial_labels_diag, in_map_iff. split.
    + intros [m [E H]]. inversion E; subst.
      split; [reflexivity|]. now apply nodup_In in H.
    + intros [-> H]. exists n. split; [reflexivity|]. now apply nodup_In.
  - rewrite Rows.initial_labels_diag. apply length_map.
Qed.

(** X2: whatever the labelling, the table of component equivalences holds
    the pair [(cl, cr)] exactly when some edge has a left end labelled [cl]
    and a right end labelled [cr], and it holds it once; an edge with an
    end that has no row in the labelling gives no pair. *)
Theorem component_equivalences_rows (edges : Edges) (labels : Labels) :
  NoDup (_get_component_equivalences edges labels) /\
  forall cl cr,
    In (cl, cr) (_get_component_equivalences edges labels) <->
    exists a b, In (a, b) edges /\ In (a, cl) labels /\ In (b, cr) labels.
Proof.
  split.
  - unfold _get_component_equivalences, Rel.distinct. apply NoDup_nodup.
  - apply Round.in_equivalences.
Qed.

(** X3: whatever the table of equivalences, the update map has one row for
    every label that stands on either side of a pair and no other row, and
    the row sends the label to the least representative [min(l, r)] of the
    pairs that hold it, which is never above the label. *)
Theorem update_map_rows (eqs : list (N * N)) :
  NoDup (map fst (_get_component_update_map eqs)) /\
  (forall old,
      In old (map fst (_get_component_update_map eqs)) <->
      In old (map fst eqs) \/ In old (map snd eqs)) /\
  (forall old new,
      In (old, new) (_get_component_update_map eqs) <->
      (exists l r, In (l, r) eqs /\ (old = l \/ old = r) /\ new = N.min l r) /\
      (forall l r, In (l, r) eqs -> old = l \/ old = r ->
                   (new <= N.min l r)%N)) /\
  (forall old new,
      In (old, new) (_get_component_update_map eqs) -> (new <= old)%N).
Proof.
  assert (Hrow : forall old new,
      In (old, new) (_get_component_update_map eqs) <->
      (exists l r, In (l, r) eqs /\ (old = l \/ old = r) /\ new = N.min l r) /\
      (forall l r, In (l, r) eqs -> old = l \/ old = r ->
                   (new <= N.min l r)%N)).
  { intros old new. unfold _get_component_update_map.
    rewrite RelFacts.in_group_by_min, RoundFacts.in_together. split.
    - intros [H1 H2]. split; [assumption|]. intros l r Hin Ho.
      apply H2. apply RoundFacts.in_together. exists l, r. auto.
    - intros [H1 H2]. split; [assumption|]. intros w Hw.
      apply RoundFacts.in_together in Hw as (l & r & Hin & Ho & ->).
      now apply H2. }
  split; [|split; [|split]].
  - unfold _get_component_update_map. apply RelFacts.NoDup_group_by_min.
  - intros old. split.
    + intros H. apply in_map_iff in H as [[o new] [E H]]. simpl in E. subst o.
      apply Hrow in H as [(l & r & Hin & [Ho|Ho] & _) _]; rewrite Ho;
        [left|right]; apply in_map_iff; now exists (l, r).
    + intros H. unfold _get_component_update_map.
      apply RoundFacts.group_by_min_key. apply in_map_iff.
      destruct H as [H|H]; apply in_map_iff in H as [[l r] [E H]];
        simpl in E; exists (old, N.min l r);
        (split; [reflexivity|]); apply RoundFacts.in_together;
        exists l, r; auto.
  - exact Hrow.
  - intros old new H. apply Hrow in H as [(l & r & _ & Ho & Hn) _].
    destruct Ho; lia.
Qed.

(** X4: whatever the labelling, also one with missing or repeated nodes,
    the left join of [_updated_labels] returns the rows of the labelling in
    their order, each once, with the same record ids. *)
Theorem updated_labels_keeps_rows (labels : Labels) (edges : Edges) :
  map fst (_updated_labels labels edges) = map record_id labels /\
  length (_updated_labels labels edges) = length labels.
Proof.
  split; [|apply Round._updated_labels_length].
  rewrite Round._updated_labels_rows, map_map. reflexivity.
Qed.

(* ================================================================== *)
(** ** More about the runs of the loop *)

Module RunFacts.
Import Rel RelFacts Graph Round Rows Invariant LoopFacts.

(** On a labelling that satisfies the invariant the loop returns or runs
    out of fuel: it raises nothing and meets no NULL. *)
Lemma propagate_no_raise edges max_iter fuel : forall i L,
  labelling_ok edges L ->
  propagate _updated_labels edges max_iter fuel i L = OutOfFuel \/
  exists r, propagate _updated_labels edges max_iter fuel i L = Returned r.
Proof.
  induction fuel as [|fuel IH]; intros i L Hok; [now left|].
  cbn [propagate]. rewrite _updated_labels_length, Nat.eqb_refl. cbn [negb].
  destruct (_n_updates _ _ =? 0); [right; eauto|].
  destruct (round_defined edges L Hok) as [L' E]. rewrite E.
  destruct (match max_iter with Some m => _ | None => false end);
    [right; eauto|].
  apply IH. now apply (round_ok edges L).
Qed.

Lemma flat_map_ext_in {A B : Type} (f g : A -> list B) l :
  (forall x, In x l -> f x = g x) -> flat_map f l = flat_map g l.
Proof.
  induction l as [|x l IH]; intros H; [reflexivity|]. simpl.
  rewrite (H x) by now left. rewrite IH; [reflexivity|].
  intros y Hy. apply H. now right.
Qed.

Lemma filter_none {A : Type} (f : A -> bool) l :
  (forall x, In x l -> f x = false) -> filter f l = [].
Proof.
  induction l as [|x l IH]; intros H; [reflexivity|]. simpl.
  rewrite (H x) by now left. apply IH. intros y Hy. apply H. now right.
Qed.

(** The number of the round in which the loop returns is not below the
    number of the round it was entered in. *)
Lemma propagate_round_ge updated edges max_iter fuel : forall i L Lr st j,
  propagate updated edges max_iter fuel i L = Returned (Lr, st, j) ->
  (i <= j)%Z.
Proof.
  induction fuel as [|fuel IH]; intros i L Lr st j H; [discriminate|].
  cbn [propagate] in H.
  destruct (negb _); [discriminate|].
  destruct (_ =? 0); [inversion H; lia|].
  destruct (non_null _) as [L'|]; [|discriminate].
  destruct (match max_iter with Some m => _ | None => false end);
    [inversion H; lia|].
  apply IH in H. lia.
Qed.

(** A run that converged under a limit is the run without the limit. *)
Lemma propagate_drop_limit updated edges m fuel : forall i L Lr j,
  propagate updated edges (Some m) fuel i L = Returned (Lr, Converged, j) ->
  propagate updated edges None fuel i L = Returned (Lr, Converged, j).
Proof.
  induction fuel as [|fuel IH]; intros i L Lr j H; [discriminate|].
  cbn [propagate] in *.
  destruct (negb _); [discriminate|].
  destruct (_ =? 0); [assumption|].
  destruct (non_null _) as [L'|]; [|discriminate].
  destruct (m <=? i)%Z; [discriminate|]. now apply IH.
Qed.

(** A limit that is not below the round in which the run without limit
    returns changes nothing. *)
Lemma propagate_add_limit updated edges m fuel : forall i L Lr st j,
  propagate updated edges None fuel i L = Returned (Lr, st, j) ->
  (j <= m)%Z ->
  propagate updated edges (Some m) fuel i L = Returned (Lr, st, j).
Proof.
  induction fuel as [|fuel IH]; intros i L Lr st j H Hm; [discriminate|].
  cbn [propagate] in *.
  destruct (negb _); [discriminate|].
  destruct (_ =? 0); [assumption|].
  destruct (non_null _) as [L'|]; [|discriminate].
  pose proof (propagate_round_ge _ _ _ _ _ _ _ _ _ H) as Hj.
  assert (E : (m <=? i)%Z = false) by (apply Z.leb_gt; lia).
  rewrite E. now apply IH.
Qed.

(** With the limit [m] the loop returns by round [max i m]. *)
Lemma propagate_within_limit edges m rem : forall i fuel L,
  labelling_ok edges L ->
  Z.to_nat (Z.max i m - i) = rem -> rem < fuel ->
  exists Lr st j,
    propagate _updated_labels edges (Some m) fuel i L = Returned (Lr, st, j) /\
    (i <= j <= Z.max i m)%Z.
Proof.
  induction rem as [|rem IH]; intros i fuel L Hok Hrem Hfuel;
    (destruct fuel as [|fuel]; [lia|]); cbn [propagate];
    rewrite _updated_labels_length, Nat.eqb_refl; cbn [negb];
    (destruct (_n_updates _ _ =? 0);
     [exists L, Converged, i; split; [reflexivity|lia]|]);
    destruct (round_defined edges L Hok) as [L' E]; rewrite E.
  - assert (Em : (m <=? i)%Z = true) by (apply Z.leb_le; lia). rewrite Em.
    exists L', MaxIterReached, i. split; [reflexivity|lia].
  - assert (Em : (m <=? i)%Z = false) by (apply Z.leb_gt; lia). rewrite Em.
    destruct (IH (i + 1)%Z fuel L') as (Lr & st & j & H1 & H2);
      [now apply (round_ok edges L)|lia|lia|].
    exists Lr, st, j. split; [assumption|lia].
Qed.

Lemma near_less edges L r r' : near edges L r -> r' <= r -> near edges L r'.
Proof.
  intros H Hr n m c Hw Hn. apply (H n m c); [|assumption].
  now apply Path.within_more with r'.
Qed.

Lemma fixpoint_near edges L r :
  labelling_ok edges L -> fixpoint edges L -> near edges L r.
Proof.
  intros Hok Hfix n m c Hw Hn.
  apply (Core.fixpoint_min_code edges L n c Hok Hfix Hn).
  now apply within_connected with r.
Qed.

(** A run stopped by the limit in round [j] returns labels that are [near]
    at distance [j]. *)
Lemma propagate_near edges max_iter fuel : forall i r L Lr j,
  labelling_ok edges L -> near edges L r -> (Z.of_nat r = i - 1)%Z ->
  propagate _updated_labels edges max_iter fuel i L
  = Returned (Lr, MaxIterReached, j) ->
  near edges Lr (Z.to_nat j) /\ exists m, max_iter = Some m /\ (m <= j)%Z.
Proof.
  induction fuel as [|fuel IH]; intros i r L Lr j Hok Hnear Hr H;
    [discriminate|].
  cbn [propagate] in H.
  destruct (negb _); [discriminate|].
  destruct (_ =? 0); [discriminate|].
  destruct (non_null _) as [L'|] eqn:E; [|discriminate].
  pose proof (Diameter.near_round edges L L' r Hok Hnear E) as Hnear'.
  destruct (match max_iter with Some m => _ | None => false end) eqn:Cmp.
  - inversion H; subst. split.
    + replace (Z.to_nat j) with (S r) by lia. assumption.
    + now apply limit_reached.
  - apply (IH (i + 1)%Z (S r) L'); [now apply (round_ok edges L)| |lia|];
      assumption.
Qed.

End RunFacts.















(** X12: a round does not depend on how the edges are stored: two edge
    tables that join the same pairs of nodes, whatever the direction, the
    order and the repetition of their rows, give the same new labelling,
    and so the same number of updates. *)
Theorem round_ignores_edge_storage (edges edges' : Edges) (labels : Labels) :
  same_adjacency edges edges' ->
  _updated_labels labels edges = _updated_labels labels edges' /\
  _n_updates labels (_updated_labels labels edges)
  = _n_updates labels (_updated_labels labels edges').
Proof.
  intros Hadj.
  assert (E : _updated_labels labels edges = _updated_labels labels edges').
  { rewrite !Round._updated_labels_rows. apply map_ext. intros r.
    f_equal. now apply RoundFacts.new_label_same_adjacency. }
  split; [assumption|]. now rewrite E.
Qed.

(** The theorem at the docstring edges and the same edges with the columns
    exchanged. *)
Lemma round_ignores_edge_storage_witness :
  _updated_labels (_get_initial_labels docstring_edges) docstring_edges
  = _updated_labels (_get_initial_labels docstring_edges)
                    (swapped docstring_edges).
Proof.
  apply (round_ignores_edge_storage docstring_edges (swapped docstring_edges)).
  apply RoundFacts.same_adjacency_swapped.
Defined.



(* ================================================================== *)
(** ** More about [connected_components] *)

Module TopFacts.
Import Rel RelFacts Graph Round Rows Invariant LoopFacts Codes Top Augment.

(** What [connected_components] returns without a universe, for any round
    limit. *)
Lemma run_table F edges l r fuel max_iter :
  conforming F ->
  get_column "record_id_l" edges = Some l ->
  get_column "record_id_r" edges = Some r ->
  dtype_of l = dtype_of r ->
  enough_fuel (int_edges_of F edges) <= fuel ->
  exists L,
    connected_components F fuel edges None max_iter
    = Returned {| record_id_type := dtype_of l;
                  label_rows :=
                    combine (nodup value_eq_dec (nodes_of (edge_rows l r)))
                            (map component L) |} /\
    length (nodup value_eq_dec (nodes_of (edge_rows l r)))
    = length (map component L).
Proof.
  intros HF Hl Hr Ht Hfuel.
  destruct (Core.run_returns _ max_iter fuel Hfuel) as (L & st & j & E & _).
  rewrite (int_edges_valid F HF edges l r Hl Hr Ht) in E.
  destruct (decoded_run F HF edges l r Hl Hr Ht _ _ _ _ _ E) as [Hids Hout].
  exists L. split; [exact Hout|].
  rewrite length_map, <- (length_map record_id L), Hids. now rewrite length_map.
Qed.

Lemma nodup_not_nil (l : list value) : l <> [] -> nodup value_eq_dec l <> [].
Proof.
  destruct l as [|x l]; [congruence|]. intros _ E.
  assert (H : In x (nodup value_eq_dec (x :: l))) by (apply nodup_In; now left).
  rewrite E in H. contradiction.
Qed.

Lemma missing_nodes_NoDup labels ids :
  NoDup (cells ids) -> NoDup (missing_nodes labels ids).
Proof. intros H. unfold missing_nodes. now apply NoDup_filter. Qed.

(** The steps of [_add_labels_for_missing_nodes] that a successful call
    went through. *)
Lemma add_labels_returned labels nodes out :
  _add_labels_for_missing_nodes labels nodes = Returned out ->
  exists ids mx,
    get_column "record_id" (as_table nodes) = Some ids /\
    dtype_of ids = record_id_type labels /\
    agg_max (map snd (label_rows labels)) = Some mx /\
    out = {| record_id_type := record_id_type labels;
             label_rows := label_rows labels
                           ++ fresh_labels mx (missing_nodes labels ids) |}.
Proof.
  intros H.
  destruct (get_column "record_id" (as_table nodes)) as [ids|] eqn:Hids.
  2:{ unfold _add_labels_for_missing_nodes, _get_additional_labels in H.
      rewrite Hids in H. discriminate. }
  destruct (dtype_eqb (dtype_of ids) (record_id_type labels)) eqn:Hd.
  2:{ unfold _add_labels_for_missing_nodes, _get_additional_labels in H.
      rewrite Hids, Hd in H. discriminate. }
  apply dtype_eqb_eq in Hd.
  destruct (agg_max (map snd (label_rows labels))) as [mx|] eqn:Hmx.
  2:{ unfold _add_labels_for_missing_nodes, _get_additional_labels in H.
      apply dtype_eqb_eq in Hd. rewrite Hids, Hd, Hmx in H. discriminate. }
  destruct (additional_labels_returned labels nodes ids mx Hids Hd Hmx)
    as [_ E].
  rewrite E in H. inversion H. exists ids, mx. auto.
Qed.

End TopFacts.





(** X16: adding the labels of the missing nodes twice is adding them once:
    after a call that returned, every node of the universe has a row, and a
    second call with the same universe returns its argument. *)
Theorem add_labels_idempotent (labels : LabelTable) (nodes : nodes_arg)
  (out : LabelTable) :
  _add_labels_for_missing_nodes labels nodes = Returned out ->
  _add_labels_for_missing_nodes out nodes = Returned out.
Proof.
  intros H.
  destruct (TopFacts.add_labels_returned labels nodes out H)
    as (ids & mx & Hids & Hd & Hmx & ->).
  set (out := {| record_id_type := record_id_type labels;
                 label_rows := label_rows labels
                               ++ fresh_labels mx (missing_nodes labels ids) |}).
  assert (Hmiss : missing_nodes out ids = []).
  { unfold missing_nodes. apply RunFacts.filter_none. intros v Hv.
    apply negb_false_iff. apply existsb_exists. exists v.
    split; [|apply Codes.value_eqb_refl].
    cbn [out label_rows]. rewrite map_app, Augment.fresh_labels_fst, in_app_iff.
    destruct (in_dec value_eq_dec v (map fst (label_rows labels))) as [Hin|Hin];
      [now left|right].
    apply Augment.in_missing_nodes. auto. }
  assert (Hrows : map snd (label_rows out) <> []).
  { cbn [out label_rows]. rewrite map_app.
    destruct (map snd (label_rows labels)); [discriminate Hmx|discriminate]. }
  destruct (Augment.agg_max_defined _ Hrows) as [mx' Hmx'].
  destruct (Augment.additional_labels_returned out nodes ids mx' Hids Hd Hmx')
    as [_ E].
  rewrite E, Hmiss. unfold fresh_labels. cbn [combine].
  now rewrite app_nil_r.
Qed.

(** The theorem at a table of two components and a universe with two new
    nodes. *)
Lemma add_labels_idempotent_witness :
  exists out,
    _add_labels_for_missing_nodes two_component_labels universe_wav
    = Returned out /\
    _add_labels_for_missing_nodes out universe_wav = Returned out.
Proof.
  eexists.
  assert (H : _add_labels_for_missing_nodes two_component_labels universe_wav
              = Returned
                  {| record_id_type := string_type;
                     label_rows := [(VString "a", 0); (VString "x", 0);
                                    (VString "g", 3); (VString "h", 3);
                                    (VString "w", 4); (VString "v", 5)]%N |})
    by (vm_compute; reflexivity).
  split; [exact H|].
  apply (add_labels_idempotent two_component_labels universe_wav _ H).
Defined.





(* ================================================================== *)
(** ** [mismo._util] *)

Module Util.

Lemma length_append (a b : string) :
  String.length (a ++ b) = String.length a + String.length b.
Proof. induction a as [|c a IH]; simpl; [reflexivity|now rewrite IH]. Qed.

Lemma append_inv_tail (s : string) : forall a b : string,
  (a ++ s)%string = (b ++ s)%string -> a = b.
Proof.
  induction a as [|c a IH]; intros [|d b] H; simpl in H.
  - reflexivity.
  - exfalso. apply (f_equal String.length) in H. simpl in H.
    rewrite length_append in H. lia.
  - exfalso. apply (f_equal String.length) in H. simpl in H.
    rewrite length_append in H. lia.
  - injection H as -> H. f_equal. now apply IH.
Qed.

Lemma string_of_uint_inj d d' :
  DecimalString.NilEmpty.string_of_uint d
  = DecimalString.NilEmpty.string_of_uint d' -> d = d'.
Proof.
  intros H.
  pose proof (DecimalString.NilEmpty.usu d) as E.
  rewrite H, DecimalString.NilEmpty.usu in E. now inversion E.
Qed.

Lemma column_name_inj i j : column_name i = column_name j -> i = j.
Proof.
  unfold column_name. intros H. simpl in H.
  repeat (injection H as H).
  apply append_inv_tail in H. apply string_of_uint_inj in H.
  now apply DecimalNat.Unsigned.to_uint_inj.
Qed.

Lemma has_column_in name t : has_column name t = true <-> In name (columns t).
Proof.
  unfold has_column. rewrite existsb_exists. split.
  - intros [x [Hx E]]. apply String.eqb_eq in E. now subst.
  - intros H. exists name. split; [assumption|apply String.eqb_refl].
Qed.

Lemma forallb_false {A : Type} (f : A -> bool) l :
  forallb f l = false -> exists x, In x l /\ f x = false.
Proof.
  induction l as [|x l IH]; simpl; [discriminate|].
  destruct (f x) eqn:E; simpl.
  - intros H. destruct (IH H) as [y [Hy Ey]]. eauto.
  - intros _. eauto.
Qed.

(** One of the first [length t + 1] names is not a column of [t]. *)
Lemma some_name_is_free (t : Table) :
  exists k, k <= length t /\ has_column (column_name k) t = false.
Proof.
  destruct (forallb (fun i => has_column (column_name i) t)
                    (seq 0 (S (length t)))) eqn:E.
  - exfalso.
    assert (Hincl : incl (map column_name (seq 0 (S (length t)))) (columns t)).
    { intros name Hn. apply in_map_iff in Hn as [i [<- Hi]].
      apply has_column_in.
      apply (proj1 (forallb_forall _ _) E i Hi). }
    assert (Hnd : NoDup (map column_name (seq 0 (S (length t))))).
    { apply Injective_map_NoDup; [|apply seq_NoDup].
      intros i j. apply column_name_inj. }
    pose proof (NoDup_incl_length Hnd Hincl) as Hlen.
    unfold columns in Hlen. rewrite !length_map, length_seq in Hlen. lia.
  - apply forallb_false in E as [k [Hk E]]. apply in_seq in Hk.
    exists k. split; [lia|assumption].
Qed.

(** The loop returns the first free name at or after its counter. *)
Lemma search_finds_first t fuel : forall i,
  (exists k, i <= k < i + fuel /\ has_column (column_name k) t = false) ->
  exists k,
    i <= k < i + fuel /\
    unique_column_name_from fuel i t = Some (column_name k) /\
    has_column (column_name k) t = false /\
    forall j, i <= j < k -> has_column (column_name j) t = true.
Proof.
  induction fuel as [|fuel IH]; intros i [k [Hk Hfree]]; [lia|].
  cbn [unique_column_name_from].
  destruct (has_column (column_name i) t) eqn:E; cbn [negb].
  - destruct (IH (S i)) as (k' & Hk' & Hres & Hfree' & Hbelow).
    { exists k. split; [|assumption].
      assert (k <> i) by (intros ->; congruence). lia. }
    exists k'. split; [lia|]. split; [assumption|]. split; [assumption|].
    intros j Hj. destruct (Nat.eq_dec j i) as [->|Hne]; [assumption|].
    apply Hbelow. lia.
  - exists i. split; [lia|]. split; [reflexivity|]. split; [assumption|].
    intros j Hj. lia.
Qed.

Section Ranks.
Variable K : Type.
Variable ltb : K -> K -> bool.
Variable eq_dec : forall x y : K, {x = y} + {x <> y}.
Hypothesis order : strict_total_order ltb.
Variable keys : list K.

Lemma rank_lt k1 k2 :
  In k1 keys -> ltb k1 k2 = true ->
  dense_rank ltb eq_dec keys k1 < dense_rank ltb eq_dec keys k2.
Proof.
  intros Hk1 Hlt. destruct order as (Hirr & Htrans & _).
  unfold dense_rank.
  assert (Hnd : NoDup (k1 :: filter (fun d => ltb d k1) (nodup eq_dec keys))).
  { constructor.
    - intros H. apply filter_In in H as [_ H]. rewrite Hirr in H. discriminate.
    - apply NoDup_filter, NoDup_nodup. }
  assert (Hincl : incl (k1 :: filter (fun d => ltb d k1) (nodup eq_dec keys))
                       (filter (fun d => ltb d k2) (nodup eq_dec keys))).
  { intros x [<-|Hx]; apply filter_In.
    - split; [now apply nodup_In|assumption].
    - apply filter_In in Hx as [Hx Hx1]. split; [assumption|].
      now apply Htrans with k1. }
  pose proof (NoDup_incl_length Hnd Hincl) as H. simpl in H. lia.
Qed.

Lemma rank_inj k1 k2 :
  In k1 keys -> In k2 keys ->
  dense_rank ltb eq_dec keys k1 = dense_rank ltb eq_dec keys k2 -> k1 = k2.
Proof.
  intros H1 H2 E. destruct (eq_dec k1 k2) as [|Hne]; [assumption|exfalso].
  destruct order as (_ & _ & Htot).
  destruct (Htot k1 k2 Hne) as [Hlt|Hlt].
  - pose proof (rank_lt k1 k2 H1 Hlt). lia.
  - pose proof (rank_lt k2 k1 H2 Hlt). lia.
Qed.

Lemma rank_bound k :
  In k keys -> dense_rank ltb eq_dec keys k < length (nodup eq_dec keys).
Proof.
  intros Hk. destruct order as (Hirr & _ & _). unfold dense_rank.
  assert (Hnd : NoDup (k :: filter (fun d => ltb d k) (nodup eq_dec keys))).
  { constructor.
    - intros H. apply filter_In in H as [_ H]. rewrite Hirr in H. discriminate.
    - apply NoDup_filter, NoDup_nodup. }
  assert (Hincl : incl (k :: filter (fun d => ltb d k) (nodup eq_dec keys))
                       (nodup eq_dec keys)).
  { intros x [<-|Hx]; [now apply nodup_In|]. now apply filter_In in Hx as [Hx _]. }
  pose proof (NoDup_incl_length Hnd Hincl) as H. simpl in H. lia.
Qed.

Lemma rank_onto c :
  c < length (nodup eq_dec keys) ->
  exists k, In k keys /\ dense_rank ltb eq_dec keys k = c.
Proof.
  intros Hc.
  set (ranks := map (dense_rank ltb eq_dec keys) (nodup eq_dec keys)).
  assert (Hnd : NoDup ranks).
  { apply Injective_map_NoDup_in; [|apply NoDup_nodup].
    intros x y Hx Hy. apply rank_inj; now apply (nodup_In eq_dec). }
  assert (Hincl : incl ranks (seq 0 (length (nodup eq_dec keys)))).
  { intros x Hx. apply in_map_iff in Hx as [k [<- Hk]]. apply in_seq.
    apply nodup_In in Hk. pose proof (rank_bound k Hk). lia. }
  assert (Hlen : length (seq 0 (length (nodup eq_dec keys))) <= length ranks).
  { unfold ranks. rewrite length_seq, length_map. lia. }
  pose proof (NoDup_length_incl Hnd Hlen Hincl c) as H.
  assert (Hin : In c ranks) by (apply H; apply in_seq; lia).
  apply in_map_iff in Hin as [k [E Hk]]. apply nodup_In in Hk. eauto.
Qed.

End Ranks.

End Util.

(** X19: [unique_column_name] returns a name of the form
    [__unique_column_name_i__] that is not a column of the table, the one
    with the least number [i]; the number is at most the number of columns,
    so the loop ends after at most that many names and one more. *)
Theorem unique_column_name_is_fresh (t : Table) (fuel : nat) :
  length t < fuel ->
  exists i,
    i <= length t /\
    unique_column_name fuel t = Some (column_name i) /\
    ~ In (column_name i) (columns t) /\
    forall j, j < i -> In (column_name j) (columns t).
Proof.
  intros Hfuel.
  destruct (Util.some_name_is_free t) as [k [Hk Hfree]].
  destruct (Util.search_finds_first t fuel 0) as (i & Hi & Hres & Hfree' & Hbelow).
  { exists k. split; [lia|assumption]. }
  exists i. split.
  - destruct (le_lt_dec i (length t)) as [|Hgt]; [assumption|exfalso].
    assert (H : has_column (column_name k) t = true) by (apply Hbelow; lia).
    congruence.
  - split; [exact Hres|]. split.
    + intros H. apply Util.has_column_in in H. congruence.
    + intros j Hj. apply Util.has_column_in. apply Hbelow. lia.
Qed.

(** The theorem at a table that already has the first name. *)
Lemma unique_column_name_is_fresh_witness :
  exists i,
    i <= 2 /\
    unique_column_name 3
      [("__unique_column_name_0__"%string, IntColumn []);
       ("record_id"%string, IntColumn [])]
    = Some (column_name i).
Proof.
  destruct (unique_column_name_is_fresh
              [("__unique_column_name_0__"%string, IntColumn []);
               ("record_id"%string, IntColumn [])] 3) as (i & Hi & H & _);
    [simpl; lia|].
  exists i. split; assumption.
Defined.

(** The name returned for that table. *)
Example unique_column_name_second :
  unique_column_name 3
    [("__unique_column_name_0__"%string, IntColumn []);
     ("record_id"%string, IntColumn [])]
  = Some "__unique_column_name_1__"%string.
Proof. vm_compute. reflexivity. Qed.

(** X20: when the keys are totally ordered, [group_id] numbers the groups
    of equal keys from 0 to the number of groups minus 1: two rows get the
    same number exactly when their keys are equal, a smaller number exactly
    when the key is smaller, and every number below the number of distinct
    keys is used. *)
Theorem group_id_numbers_groups (K : Type) (ltb : K -> K -> bool)
  (eq_dec : forall x y : K, {x = y} + {x <> y}) (keys : list K) :
  strict_total_order ltb ->
  length (group_id ltb eq_dec keys) = length keys /\
  (forall i j ki kj gi gj,
      nth_error keys i = Some ki -> nth_error keys j = Some kj ->
      nth_error (group_id ltb eq_dec keys) i = Some gi ->
      nth_error (group_id ltb eq_dec keys) j = Some gj ->
      (gi = gj <-> ki = kj) /\ ((gi < gj)%N <-> ltb ki kj = true)) /\
  (forall c, In c (group_id ltb eq_dec keys) <->
             (c < N.of_nat (length (nodup eq_dec keys)))%N).
Proof.
  intros Hord. unfold group_id. split; [apply length_map|]. split.
  - intros i j ki kj gi gj Hi Hj Gi Gj.
    rewrite nth_error_map, Hi in Gi. rewrite nth_error_map, Hj in Gj.
    simpl in Gi, Gj. inversion Gi; inversion Gj; subst gi gj; clear Gi Gj.
    apply nth_error_In in Hi, Hj. split.
    + split; [|now intros ->].
      intros E. apply Nat2N.inj in E.
      now apply (Util.rank_inj K ltb eq_dec Hord keys).
    + split.
      * intros Hlt.
        destruct (eq_dec ki kj) as [->|Hne]; [lia|].
        destruct Hord as (Hirr & Htrans & Htot).
        destruct (Htot ki kj Hne) as [H|H]; [assumption|exfalso].
        pose proof (Util.rank_lt K ltb eq_dec (conj Hirr (conj Htrans Htot))
                      keys kj ki Hj H). lia.
      * intros Hlt.
        pose proof (Util.rank_lt K ltb eq_dec Hord keys ki kj Hi Hlt). lia.
  - intros c. rewrite in_map_iff. split.
    + intros [k [<- Hk]].
      pose proof (Util.rank_bound K ltb eq_dec Hord keys k Hk). lia.
    + intros Hc.
      destruct (Util.rank_onto K ltb eq_dec Hord keys (N.to_nat c))
        as [k [Hk E]]; [lia|].
      exists k. split; [|assumption]. rewrite E. apply N2Nat.id.
Qed.

(** The theorem at an integer column with three groups. *)
Lemma group_id_numbers_groups_witness :
  strict_total_order Z.ltb /\
  forall c, In c (group_id Z.ltb Z.eq_dec [30; 10; 30; 20]%Z) <-> (c < 3)%N.
Proof.
  assert (H : strict_total_order Z.ltb).
  { split; [apply Z.ltb_irrefl|]. split.
    - intros x y z H1 H2. apply Z.ltb_lt in H1, H2. apply Z.ltb_lt. lia.
    - intros x y Hne. rewrite !Z.ltb_lt. lia. }
  split; [exact H|].
  destruct (group_id_numbers_groups Z Z.ltb Z.eq_dec [30; 10; 30; 20]%Z H)
    as (_ & _ & H3).
  exact H3.
Defined.

(** The numbers of that column. *)
Example group_id_of_column :
  group_id Z.ltb Z.eq_dec [30; 10; 30; 20]%Z = [2; 0; 2; 1]%N.
Proof. vm_compute. reflexivity. Qed.
